(** * The custom FFT evaluator example of Sourcery VSIPL++ (examples/dispatch/fft.cpp)

    A shallow embedding of the example's backend class [Fft_1024], of its
    [Evaluator] specialisation, and of the dispatch step that chooses between
    the user backend and the system backend, followed by the properties the
    specification states about them. *)

From Stdlib Require Import ZArith Lia String.
From Stdlib Require Import Floats.SpecFloat.
From stdpp Require Import gmap strings list fin_maps.

Local Open Scope Z_scope.

(** ** Scalars: [float] and [complex<float>] *)

Module Float32.

(** IEEE 754 binary32: 24 bits of precision, exponents below 128. *)
Definition prec : Z := 24.
Definition emax : Z := 128.

Definition float : Type := spec_float.

Definition fmul (x y : float) : float := SFmul prec emax x y.

(** The literals [1.] and [0.] converted to [float]. *)
Definition f_one : float := S754_finite false 8388608 (-23).
Definition f_zero : float := S754_zero false.

(** [std::complex<float>]: a real and an imaginary part. *)
Record complex : Type := Complex { re : float; im : float }.

(** [complex<float>(x)]: the imaginary part defaults to zero. *)
Definition complex_of_float (x : float) : complex :=
  {| re := x; im := f_zero |}.

(** [z * s] for [z : complex<float>] and [s : float]: both parts are
    multiplied by the real factor. *)
Definition cscale (z : complex) (s : float) : complex :=
  {| re := fmul (re z) s; im := fmul (im z) s |}.

End Float32.
Import Float32.

(** ** A state monad with failure

    A computation reads and updates a state and may go wrong; going wrong
    ([None]) stands for undefined behaviour of the C++ program, such as an
    access outside the storage of a buffer. *)

Definition M (S A : Type) : Type := S -> option (A * S).

Definition ret {S A : Type} (x : A) : M S A := fun s => Some (x, s).

Definition bind {S A B : Type} (c : M S A) (k : A -> M S B) : M S B :=
  fun s => match c s with
           | Some (x, s') => k x s'
           | None => None
           end.

Declare Scope comp_scope.
Delimit Scope comp_scope with comp.
Notation "'let*' x ':=' c 'in' k" := (bind c (fun x => k))
  (at level 10, x name, c at level 100, k at level 200) : comp_scope.
Notation "c1 ';;;' c2" := (bind c1 (fun _ => c2))
  (at level 100, c2 at level 200, right associativity) : comp_scope.
Local Open Scope comp_scope.

(** [for (index_type i = first; i < first + n; i++) body(i)], for a body that
    changes neither the counter nor the bound. *)
Fixpoint for_upto {S : Type} (n : nat) (i : Z) (body : Z -> M S unit) : M S unit :=
  match n with
  | O => ret tt
  | Datatypes.S n' => body i ;;; for_upto n' (i + 1) body
  end.

(** [for (index_type i = 0; i < length; i++) body(i)]. The counter runs over
    [0 .. length - 1] and never wraps, since it stays below [length]. *)
Definition for_loop {S : Type} (length : Z) (body : Z -> M S unit) : M S unit :=
  for_upto (Z.to_nat length) 0 body.

(** ** Index types and domains *)

(** [index_type] and [length_type] are unsigned and [stride_type] is a signed
    integer type of the same width; they are declared in vsip/support.hpp,
    which is not part of the example, so the width is a parameter. *)
Class WordSize : Type := word_bits : Z.

(** Arithmetic on [index_type]: results are reduced modulo [2 ^ word_bits]. *)
Definition wrap `{WordSize} (x : Z) : Z := x mod 2 ^ word_bits.

(** Modelled from the spec: [Domain<1>] (vsip/domain.hpp), the construction
    argument that carries the requested length.  A one-dimensional domain is
    a first index, a stride and a length; [size()] is its length, and a
    length converts to the domain that starts at 0 with stride 1. *)
Record Domain1 : Type :=
  { dom_first : Z; dom_stride : Z; dom_length : Z }.

Definition Domain_size (dom : Domain1) : Z := dom_length dom.

Definition Domain_of_length (n : Z) : Domain1 :=
  {| dom_first := 0; dom_stride := 1; dom_length := n |}.

(** ** Backend objects *)

(** [class Fft_1024]: the only data member is the scale factor. *)
Record Fft_1024 : Type := { scale_ : float }.

(** Modelled from the spec: [fft::Fft_backend<1, complex<float>,
    complex<float>, fft_fwd>] (vsip_csl/fft.hpp), the interface behind which
    a backend is owned.  A backend is the user backend of the example or the
    backend the library itself provides, which is opaque here and only
    remembers its construction arguments. *)
Inductive Fft_backend : Type :=
  | User_backend (b : Fft_1024)
  | System_backend (dom : Domain1) (scale : float).

Definition loc : Type := positive.

(** [std::auto_ptr<Fft_backend>]: the single owner of a heap object. *)
Record auto_ptr : Type := Auto_ptr { get : loc }.

(** ** The machine state *)

(** What a run does, in order: reads and writes of array elements and lines
    sent to [std::cout]. *)
Inductive event : Type :=
  | EvLoad (a : Z)
  | EvStore (a : Z)
  | EvPrint (line : string).

(** Array storage maps element addresses (in units of one [complex<float>])
    to values, an address without a value is not allocated; [objects] holds
    the backends created by [new]. *)
Record Machine : Type :=
  { mem : gmap Z complex;
    objects : gmap loc Fft_backend;
    trace : list event }.

Definition log (e : event) (s : Machine) : Machine :=
  {| mem := mem s; objects := objects s; trace := trace s ++ [e] |}.

Section Memory.
Context `{WordSize}.

(** Pointers are [word_bits] wide, so the address of an element is below
    [2 ^ word_bits]. *)
Definition valid_addr (a : Z) : bool := (0 <=? a) && (a <? 2 ^ word_bits).

(** [*p] as an rvalue; undefined outside allocated storage. *)
Definition load (a : Z) : M Machine complex :=
  fun s =>
    if valid_addr a then
      match mem s !! a with
      | Some v => Some (v, log (EvLoad a) s)
      | None => None
      end
    else None.

(** [*p = v]; undefined outside allocated storage. *)
Definition store (a : Z) (v : complex) : M Machine unit :=
  fun s =>
    if valid_addr a then
      match mem s !! a with
      | Some _ =>
          Some (tt, {| mem := <[a := v]> (mem s);
                       objects := objects s;
                       trace := trace s ++ [EvStore a] |})
      | None => None
      end
    else None.

(** The address of [data[i * stride]]: the signed stride is converted to
    the unsigned type of the index, the product is taken in that type, and
    the result is added to the pointer. *)
Definition subscript (data i stride : Z) : Z := data + wrap (i * stride).
End Memory.

(** [std::cout << line << std::endl]. *)
Definition print (line : string) : M Machine unit :=
  fun s => Some (tt, log (EvPrint line) s).

(** [new T(...)]: run the constructor, then hand out storage no live object
    occupies. *)
Definition new_ (ctor : M Machine Fft_backend) : M Machine auto_ptr :=
  let* obj := ctor in
  fun s =>
    let p := fresh (dom (objects s)) in
    Some (Auto_ptr p,
          {| mem := mem s; objects := <[p := obj]> (objects s); trace := trace s |}).

(** ** Data layouts *)

Module dda.

(** Modelled from the spec: the values of a LayoutDescriptor's two fields
    (the enumerations are declared in the library's headers). *)
Inductive pack_type : Type := dense | strided.
Inductive storage_format_type : Type := interleaved_complex | split_complex.

(** Modelled from the spec: [dda::Rt_layout<1>] (vsip_csl/dda.hpp), the
    LayoutDescriptor.  The example assigns [packing] and [storage_format];
    whatever else the library's structure holds is kept as one field of a
    type the development does not look into. *)
Record Rt_layout (Rest : Type) : Type :=
  { packing : pack_type;
    storage_format : storage_format_type;
    rest : Rest }.
Arguments packing {Rest} _.
Arguments storage_format {Rest} _.
Arguments rest {Rest} _.

(** Layout objects are passed by reference: a store of layout objects,
    and references into it (two references may name one object). *)
Definition ref : Type := positive.
Abbreviation layouts Rest := (gmap ref (Rt_layout Rest)).

Section References.
Context {Rest : Type}.

(** [r.packing = v] as an expression: assigns and yields the lvalue,
    whose value is read back when it is used as an operand. *)
Definition assign_packing (r : ref) (v : pack_type) : M (layouts Rest) pack_type :=
  fun ls =>
    match ls !! r with
    | Some l =>
        let l' := {| packing := v; storage_format := storage_format l;
                     rest := rest l |} in
        Some (packing l', <[r := l']> ls)
    | None => None
    end.

Definition assign_storage_format (r : ref) (v : storage_format_type)
  : M (layouts Rest) storage_format_type :=
  fun ls =>
    match ls !! r with
    | Some l =>
        let l' := {| packing := packing l; storage_format := v;
                     rest := rest l |} in
        Some (storage_format l', <[r := l']> ls)
    | None => None
    end.
End References.

End dda.
Import dda.

(** ** The backend class [example::Fft_1024] *)

Module example.
Section Fft_1024_class.
Context `{WordSize}.

(** The constructor ignores the domain, stores the scale factor and prints
    a diagnostic line. *)
Definition Fft_1024_ctor (dom : Domain1) (scale : float) : M Machine Fft_1024 :=
  let this := {| scale_ := scale |} in
  print "examples::Fft_1024 constructor called" ;;;
  ret this.

(** [in_place(data, stride, length)].  The object is passed as its value:
    the transforms read [scale_] and assign to no member. *)
Definition in_place (this : Fft_1024) (data stride length : Z) : M Machine unit :=
  for_loop length (fun i =>
    let* x := load (subscript data i stride) in
    store (subscript data i stride) (cscale x (scale_ this))) ;;;
  print "examples::Fft_1024::in_place called".

(** [out_of_place(data_in, stride_in, data_out, stride_out, length)]. *)
Definition out_of_place (this : Fft_1024) (data_in stride_in : Z)
    (data_out stride_out : Z) (length : Z) : M Machine unit :=
  for_loop length (fun i =>
    let* x := load (subscript data_in i stride_in) in
    store (subscript data_out i stride_out) (cscale x (scale_ this))) ;;;
  print "examples::Fft_1024::out_of_place called".

(** [query_layout(rtl_inout)]. *)
Definition query_layout {Rest : Type} (rtl_inout : ref) : M (layouts Rest) unit :=
  assign_packing rtl_inout dense ;;;
  assign_storage_format rtl_inout interleaved_complex ;;;
  ret tt.

(** [query_layout(rtl_in, rtl_out)]: each statement assigns to [rtl_out]
    first and then gives [rtl_in] the value of that assignment. *)
Definition query_layout2 {Rest : Type} (rtl_in rtl_out : ref) : M (layouts Rest) unit :=
  (let* p := assign_packing rtl_out dense in assign_packing rtl_in p) ;;;
  (let* f := assign_storage_format rtl_out interleaved_complex in
   assign_storage_format rtl_in f) ;;;
  ret tt.
End Fft_1024_class.
End example.
Import example.

(** ** Operation signatures *)

(** Modelled from the spec: element types, directions and call styles of an
    OperationSignature, as far as the example names them. *)
Inductive scalar_type : Type :=
  | t_float | t_double | t_complex_float | t_complex_double.

Inductive direction : Type := fft_fwd | fft_inv.

Inductive return_mechanism : Type := by_value | by_reference.

(** Modelled from the spec: the OperationSignature [op::fft<D, I, O, S, R,
    N>] that the evaluator is specialised on (the tag is declared in the
    library's headers): dimension, input and output types, direction, return
    mechanism and the template argument [N]. *)
Inductive operation : Type :=
  | op_fft (D : nat) (I O : scalar_type) (dir : direction)
           (rm : return_mechanism) (N : nat).

(** ** The evaluator of the example *)

Module dispatcher.

(** [Evaluator<op::fft<1, complex<float>, complex<float>, fft_fwd,
    by_reference, N>, be::user, ...>], for every [N]. *)
Module Evaluator.

(** The operations the partial specialisation applies to. *)
Definition specialises (op : operation) : bool :=
  match op with
  | op_fft 1%nat t_complex_float t_complex_float fft_fwd by_reference _ => true
  | _ => false
  end.

Definition ct_valid (N : nat) : bool := true.

Definition rt_valid (dom : Domain1) (_ : float) : bool :=
  Domain_size dom =? 1024.

Definition exec (dom : Domain1) (scale : float) : M Machine auto_ptr :=
  new_ (let* b := Fft_1024_ctor dom scale in ret (User_backend b)).

End Evaluator.

(** *** The dispatcher (vsip_csl/dispatch.hpp is not part of the example) *)

(** Modelled from the spec: a Candidate binds a signature pattern to a
    static-validity predicate (a function of the signature alone), a
    runtime-validity predicate and a construction function (both over the
    construction arguments). *)
Record Candidate : Type :=
  { pattern : operation -> bool;
    static_valid : operation -> bool;
    runtime_valid : Domain1 -> float -> bool;
    construct : Domain1 -> float -> M Machine auto_ptr }.

(** Modelled from the spec: dispatch fails with NoMatchingBackend, which
    carries the signature and the arguments. *)
Inductive DispatchError : Type :=
  | NoMatchingBackend (sig : operation) (dom : Domain1) (scale : float).

(** Modelled from the spec: [candidates_for(signature)], the candidates
    whose pattern matches, in registration order. *)
Definition candidates_for (registry : list Candidate) (sig : operation)
  : list Candidate :=
  List.filter (fun c => pattern c sig) registry.

(** Modelled from the spec: steps 2 to 5 of [select].  A candidate that is
    not statically valid is skipped without asking its runtime predicate;
    the first candidate that passes both constructs the backend; an
    exhausted sequence is an error. *)
Fixpoint select_from (cands : list Candidate) (sig : operation)
    (dom : Domain1) (scale : float) : M Machine (DispatchError + auto_ptr) :=
  match cands with
  | [] => ret (inl (NoMatchingBackend sig dom scale))
  | c :: cands' =>
      if static_valid c sig then
        if runtime_valid c dom scale then
          let* b := construct c dom scale in ret (inr b)
        else select_from cands' sig dom scale
      else select_from cands' sig dom scale
  end.

(** Modelled from the spec: [select(signature, constructionArgs)]. *)
Definition select (registry : list Candidate) (sig : operation)
    (dom : Domain1) (scale : float) : M Machine (DispatchError + auto_ptr) :=
  select_from (candidates_for registry sig) sig dom scale.

(** The evaluator of the example as a candidate. *)
Definition user_candidate : Candidate :=
  {| pattern := Evaluator.specialises;
     static_valid := fun sig => match sig with op_fft _ _ _ _ _ N => Evaluator.ct_valid N end;
     runtime_valid := Evaluator.rt_valid;
     construct := Evaluator.exec |}.

(** Modelled from the spec: the generic candidate, statically and at
    runtime always valid, which constructs the system backend. *)
Definition system_candidate : Candidate :=
  {| pattern := fun _ => true;
     static_valid := fun _ => true;
     runtime_valid := fun _ _ => true;
     construct := fun dom scale => new_ (ret (System_backend dom scale)) |}.

(** Modelled from the spec: the registry of Scenario A, with the
    specialised candidate registered first. *)
Definition registry : list Candidate := [user_candidate; system_candidate].

End dispatcher.
Import dispatcher.

(** ** The facade *)

(** Modelled from the spec: the Fft object (vsip_csl/fft.hpp) owns the one
    backend that dispatch selects when it is constructed, for the signature
    given by its template arguments. *)
Record Fft : Type := { backend_ : auto_ptr }.

(** Modelled from the spec: the constructor of the facade, which asks the
    dispatcher once and keeps the backend it returns. *)
Definition Fft_ctor (sig : operation) (dom : Domain1) (scale : float)
  : M Machine (DispatchError + Fft) :=
  let* r := select registry sig dom scale in
  match r with
  | inl e => ret (inl e)
  | inr b => ret (inr {| backend_ := b |})
  end.

(** [typedef Fft<Vector, complex<float>, complex<float>, fft_fwd,
    by_reference> fft_type] in [main], for the template argument [N]. *)
Definition fft_type (N : nat) : operation :=
  op_fft 1 t_complex_float t_complex_float fft_fwd by_reference N.

(** [fft_type fft1(1024, 1.)] and [fft_type fft2(2048, 1.)] in [main]. *)
Definition main_fft1 (N : nat) : M Machine (DispatchError + Fft) :=
  print "Creating 1024-element Fft object" ;;;
  Fft_ctor (fft_type N) (Domain_of_length 1024) f_one.

Definition main_fft2 (N : nat) : M Machine (DispatchError + Fft) :=
  print "Creating 2048-element Fft object" ;;;
  Fft_ctor (fft_type N) (Domain_of_length 2048) f_one.

(** ** Vocabulary of the statements *)

Section Vocabulary.
Context `{WordSize}.

(** An access to address [a] is defined in state [s]. *)
Definition accessible (s : Machine) (a : Z) : Prop :=
  valid_addr a = true /\ is_Some (mem s !! a).

(** The buffer that starts at [data] holds (at least) [n] elements. *)
Definition holds (s : Machine) (data n : Z) : Prop :=
  forall k, 0 <= k < n -> accessible s (data + k).

(** [a] is one of the elements [data[i * stride]], [0 <= i < length]. *)
Definition element (data stride length a : Z) : Prop :=
  exists i, 0 <= i < length /\ a = data + i * stride.
End Vocabulary.

Definition is_load (a : Z) (e : event) : bool :=
  match e with EvLoad b => a =? b | _ => false end.

Definition is_store (a : Z) (e : event) : bool :=
  match e with EvStore b => a =? b | _ => false end.

(** How often a run read, respectively wrote, the element at [a]. *)
Definition loads_of (a : Z) (evs : list event) : nat :=
  length (List.filter (is_load a) evs).

Definition stores_of (a : Z) (evs : list event) : nat :=
  length (List.filter (is_store a) evs).

(** The events of a loop whose iteration [i] reads [g i] and then writes
    [h i], for [n] iterations from [i]. *)
Fixpoint sweep (n : nat) (i : Z) (g h : Z -> Z) : list event :=
  match n with
  | O => []
  | Datatypes.S n' => EvLoad (g i) :: EvStore (h i) :: sweep n' (i + 1) g h
  end.

(** The elements [data[i * stride]], [0 <= i < length], are unit-valued, as
    in [Vector<complex<float> > v(length, 1.)]. *)
Definition unit_valued (s : Machine) (data stride length : Z) : Prop :=
  forall i, 0 <= i < length ->
    mem s !! (data + i * stride) = Some (complex_of_float f_one).

(** The layout the backend asks for, given the layout proposed. *)
Definition required {Rest : Type} (l : Rt_layout Rest) : Rt_layout Rest :=
  {| packing := dense; storage_format := interleaved_complex; rest := rest l |}.




(** ** Concrete inputs *)

Module Samples.

(** A 64-bit target. *)
Definition word64 : WordSize := 64.

(** Storage of [size] unit-valued elements from address [base] on. *)
Definition unit_buffer (base size : Z) : gmap Z complex :=
  list_to_map ((fun k => (base + k, complex_of_float f_one)) <$> seqZ 0 size).

(** A machine with that storage, no backend objects and no history. *)
Definition unit_machine (base size : Z) : Machine :=
  {| mem := unit_buffer base size; objects := ∅; trace := [] |}.

(** Two layout objects, at references 1 and 2, as a caller may propose
    them; the remaining fields are a number here. *)
Definition proposals : gmap ref (Rt_layout nat) :=
  {[ 1%positive := {| packing := strided; storage_format := split_complex;
                      rest := 7%nat |};
     2%positive := {| packing := dense; storage_format := split_complex;
                      rest := 9%nat |} ]}.


(** Two layout objects that already are what the backend requires. *)
Definition agreed : gmap ref (Rt_layout nat) :=
  {[ 1%positive := {| packing := dense; storage_format := interleaved_complex;
                      rest := 7%nat |};
     2%positive := {| packing := dense; storage_format := interleaved_complex;
                      rest := 9%nat |} ]}.

(** The literal [2.] as a [float]. *)
Definition f_two : float := S754_finite false 8388608 (-22).

(** The element at [a] once [c] has run from [s], if [c] is defined. *)
Definition mem_after (c : M Machine unit) (s : Machine) (a : Z) : option complex :=
  match c s with
  | Some (_, s') => mem s' !! a
  | None => None
  end.

End Samples.

(** * Properties *)

(** ** Counting events *)

Lemma loads_of_app a evs1 evs2 :
  loads_of a (evs1 ++ evs2) = (loads_of a evs1 + loads_of a evs2)%nat.
Proof. unfold loads_of. by rewrite List.filter_app, length_app. Qed.

Lemma stores_of_app a evs1 evs2 :
  stores_of a (evs1 ++ evs2) = (stores_of a evs1 + stores_of a evs2)%nat.
Proof. unfold stores_of. by rewrite List.filter_app, length_app. Qed.

Lemma loads_of_sweep_none a g h n i :
  (forall k, i <= k < i + Z.of_nat n -> g k <> a) ->
  loads_of a (sweep n i g h) = 0%nat.
Proof.
  revert i. induction n as [|n IH]; intros i Hne; [done|].
  assert (Hi : g i <> a) by (apply Hne; lia).
  change (sweep (Datatypes.S n) i g h)
    with ([EvLoad (g i); EvStore (h i)] ++ sweep n (i + 1) g h).
  rewrite loads_of_app, IH by (intros k Hk; apply Hne; lia).
  unfold loads_of; simpl.
  destruct (Z.eqb_spec a (g i)); [congruence | done].
Qed.

Lemma stores_of_sweep_none a g h n i :
  (forall k, i <= k < i + Z.of_nat n -> h k <> a) ->
  stores_of a (sweep n i g h) = 0%nat.
Proof.
  revert i. induction n as [|n IH]; intros i Hne; [done|].
  assert (Hi : h i <> a) by (apply Hne; lia).
  change (sweep (Datatypes.S n) i g h)
    with ([EvLoad (g i); EvStore (h i)] ++ sweep n (i + 1) g h).
  rewrite stores_of_app, IH by (intros k Hk; apply Hne; lia).
  unfold stores_of; simpl.
  destruct (Z.eqb_spec a (h i)); [congruence | done].
Qed.

Lemma loads_of_sweep_once g h n i k :
  i <= k < i + Z.of_nat n ->
  (forall j, i <= j < i + Z.of_nat n -> g j = g k -> j = k) ->
  loads_of (g k) (sweep n i g h) = 1%nat.
Proof.
  revert i. induction n as [|n IH]; intros i Hk Hinj; [lia|].
  change (sweep (Datatypes.S n) i g h)
    with ([EvLoad (g i); EvStore (h i)] ++ sweep n (i + 1) g h).
  rewrite loads_of_app. destruct (decide (k = i)) as [->|Hki].
  - rewrite loads_of_sweep_none.
    + unfold loads_of; simpl. by rewrite Z.eqb_refl.
    + intros j Hj Heq. apply Hinj in Heq; lia.
  - rewrite IH by (try lia; intros j Hj; apply Hinj; lia).
    unfold loads_of; simpl.
    destruct (Z.eqb_spec (g k) (g i)) as [Heq|]; [|done].
    symmetry in Heq. apply Hinj in Heq; lia.
Qed.

Lemma stores_of_sweep_once g h n i k :
  i <= k < i + Z.of_nat n ->
  (forall j, i <= j < i + Z.of_nat n -> h j = h k -> j = k) ->
  stores_of (h k) (sweep n i g h) = 1%nat.
Proof.
  revert i. induction n as [|n IH]; intros i Hk Hinj; [lia|].
  change (sweep (Datatypes.S n) i g h)
    with ([EvLoad (g i); EvStore (h i)] ++ sweep n (i + 1) g h).
  rewrite stores_of_app. destruct (decide (k = i)) as [->|Hki].
  - rewrite stores_of_sweep_none.
    + unfold stores_of; simpl. by rewrite Z.eqb_refl.
    + intros j Hj Heq. apply Hinj in Heq; lia.
  - rewrite IH by (try lia; intros j Hj; apply Hinj; lia).
    unfold stores_of; simpl.
    destruct (Z.eqb_spec (h k) (h i)) as [Heq|]; [|done].
    symmetry in Heq. apply Hinj in Heq; lia.
Qed.

(** ** Loads, stores and the loop of the two transforms *)

Section Loops.
Context `{WordSize}.

Lemma wrap_small x : 0 <= x < 2 ^ word_bits -> wrap x = x.
Proof. intros Hx. unfold wrap. by apply Z.mod_small. Qed.

Lemma valid_addr_range a : valid_addr a = true <-> 0 <= a < 2 ^ word_bits.
Proof. unfold valid_addr. rewrite andb_true_iff. lia. Qed.

Lemma accessible_log s e a : accessible (log e s) a <-> accessible s a.
Proof. done. Qed.

Lemma load_defined s a :
  accessible s a ->
  exists x, mem s !! a = Some x /\ load a s = Some (x, log (EvLoad a) s).
Proof.
  intros [Hv [x Hx]]. exists x. split; [done|].
  unfold load. by rewrite Hv, Hx.
Qed.

Lemma store_defined s a v :
  accessible s a ->
  store a v s = Some (tt, {| mem := <[a := v]> (mem s);
                             objects := objects s;
                             trace := trace s ++ [EvStore a] |}).
Proof. intros [Hv [x Hx]]. unfold store. by rewrite Hv, Hx. Qed.

(** One iteration: read the element at [src], write the scaled value at
    [dst]. *)
Lemma iteration_defined sc s src dst :
  accessible s src -> accessible s dst ->
  exists x, mem s !! src = Some x /\
    (let* y := load src in store dst (cscale y sc)) s
    = Some (tt, {| mem := <[dst := cscale x sc]> (mem s);
                   objects := objects s;
                   trace := trace s ++ [EvLoad src; EvStore dst] |}).
Proof.
  intros Hsrc Hdst.
  destruct (load_defined s src Hsrc) as (x & Hx & Hload).
  exists x. split; [done|].
  unfold bind. rewrite Hload.
  rewrite store_defined by (by apply accessible_log).
  simpl. by rewrite <- app_assoc.
Qed.

Lemma for_upto_ext {S : Type} n i (body1 body2 : Z -> M S unit) :
  (forall k, i <= k < i + Z.of_nat n -> body1 k = body2 k) ->
  for_upto n i body1 = for_upto n i body2.
Proof.
  revert i. induction n as [|n IH]; intros i Heq; [done|].
  simpl. rewrite Heq by lia. f_equal.
  rewrite (IH (i + 1)); [done|]. intros k Hk. apply Heq. lia.
Qed.

(** The loop that reads [g k] and writes [h k] in iteration [k]: it is
    defined when every address it touches is accessible, it leaves every
    address that is no [h k] alone, and, when no write hits a later read
    and no two iterations write the same address, it leaves at [h k] the
    scaled original value of [g k]. *)
Lemma sweep_loop sc (g h : Z -> Z) n : forall i s,
  (forall k, i <= k < i + Z.of_nat n -> accessible s (g k) /\ accessible s (h k)) ->
  exists s',
    for_upto n i (fun k => let* x := load (g k) in store (h k) (cscale x sc)) s
    = Some (tt, s') /\
    objects s' = objects s /\
    trace s' = trace s ++ sweep n i g h /\
    (forall a, (forall k, i <= k < i + Z.of_nat n -> h k <> a) ->
       mem s' !! a = mem s !! a) /\
    (forall a, accessible s' a <-> accessible s a) /\
    ((forall j k, i <= j < k -> k < i + Z.of_nat n -> h j <> g k) ->
     (forall j k, i <= j < i + Z.of_nat n -> i <= k < i + Z.of_nat n ->
        h j = h k -> j = k) ->
     forall k x, i <= k < i + Z.of_nat n -> mem s !! g k = Some x ->
       mem s' !! h k = Some (cscale x sc)).
Proof.
  induction n as [|n IH]; intros i s Hacc.
  { exists s. simpl. rewrite app_nil_r.
    split; [done|]. split; [done|]. split; [done|].
    split; [done|]. split; [done|]. intros _ _ k x Hk. lia. }
  destruct (Hacc i) as [Hg Hh]; [lia|].
  destruct (iteration_defined sc s (g i) (h i) Hg Hh) as (x0 & Hx0 & Hbody).
  set (s1 := {| mem := <[h i := cscale x0 sc]> (mem s);
                objects := objects s;
                trace := trace s ++ [EvLoad (g i); EvStore (h i)] |}) in *.
  assert (Hacc1 : forall a, accessible s1 a <-> accessible s a).
  { intros a. unfold accessible, s1; simpl.
    rewrite lookup_insert_is_Some'. destruct Hh as [? ?]. split; [|tauto].
    intros [Hv [Heq|Hsome]]; [subst a|]; done. }
  destruct (IH (i + 1) s1) as (s' & Hrun & Hobj & Htr & Hframe & Hdom & Hval).
  { intros k Hk. rewrite !Hacc1. apply Hacc. lia. }
  exists s'. split; [|split; [|split; [|split; [|split]]]].
  - simpl. unfold bind at 1. by rewrite Hbody.
  - by rewrite Hobj.
  - rewrite Htr. unfold s1; simpl. by rewrite <- app_assoc.
  - intros a Ha. rewrite Hframe by (intros k Hk; apply Ha; lia).
    unfold s1; simpl. apply lookup_insert_ne. apply Ha. lia.
  - intros a. by rewrite Hdom, Hacc1.
  - intros Hlater Hinj k x Hk Hx.
    destruct (decide (k = i)) as [->|Hki].
    + rewrite Hframe.
      * unfold s1; simpl. rewrite lookup_insert_eq. congruence.
      * intros j Hj Heq. apply Hinj in Heq; lia.
    + apply Hval; try lia.
      * intros j k' Hj Hk'. apply Hlater; lia.
      * intros j k' Hj Hk'. apply Hinj; lia.
      * unfold s1; simpl. rewrite lookup_insert_ne; [done|].
        apply Hlater; lia.
Qed.
End Loops.

(** ** The transforms of [Fft_1024] *)

Section Transforms.
Context `{WordSize}.
Implicit Types (s : Machine) (this : Fft_1024).

(** With a stride of at least one and a buffer of at least
    [(length - 1) * stride + 1] elements, the offset [i * stride] does not
    wrap and stays inside the buffer. *)
Lemma strided_in_bounds s data stride length n i :
  1 <= stride -> holds s data n -> (length - 1) * stride + 1 <= n ->
  0 <= i < length ->
  0 <= i * stride < n /\
  subscript data i stride = data + i * stride /\
  accessible s (data + i * stride).
Proof.
  intros Hstride Hholds Hn Hi.
  assert (Hoff : 0 <= i * stride < n) by nia.
  assert (Hacc : accessible s (data + i * stride)) by (by apply Hholds).
  split; [done|]. split; [|done].
  unfold subscript. rewrite wrap_small; [done|].
  destruct (Hholds 0) as [Hv0 _]; [lia|].
  destruct Hacc as [Hv _].
  apply valid_addr_range in Hv0, Hv. lia.
Qed.

Lemma strided_injective data stride j k :
  1 <= stride -> data + j * stride = data + k * stride -> j = k.
Proof. intros Hstride Heq. nia. Qed.

Lemma not_element_ne data stride length a k :
  ~ element data stride length a ->
  0 <= k < 0 + Z.of_nat (Z.to_nat length) -> data + k * stride <> a.
Proof. intros Hne Hk Heq. apply Hne. exists k. split; [lia|done]. Qed.

Lemma then_print {A : Type} (c : M Machine A) line s s' x :
  c s = Some (x, s') ->
  (c ;;; print line) s = Some (tt, log (EvPrint line) s').
Proof. intros Hc. unfold bind. by rewrite Hc. Qed.

Lemma loads_of_then_print a evs line :
  loads_of a (evs ++ [EvPrint line]) = loads_of a evs.
Proof. rewrite loads_of_app. unfold loads_of at 2; simpl. lia. Qed.

Lemma stores_of_then_print a evs line :
  stores_of a (evs ++ [EvPrint line]) = stores_of a evs.
Proof. rewrite stores_of_app. unfold stores_of at 2; simpl. lia. Qed.

(** What a call of [in_place] does, when the stride is at least one and
    the buffer holds the elements addressed: the events it adds and the
    memory it leaves. *)
Lemma in_place_run this s data stride length n :
  1 <= stride -> holds s data n -> (length - 1) * stride + 1 <= n ->
  exists s',
    in_place this data stride length s = Some (tt, s') /\
    objects s' = objects s /\
    trace s'
    = trace s ++ sweep (Z.to_nat length) 0 (fun k => data + k * stride)
                   (fun k => data + k * stride)
              ++ [EvPrint "examples::Fft_1024::in_place called"] /\
    (forall i, 0 <= i < length ->
       mem s' !! (data + i * stride)
       = (fun x => cscale x (scale_ this)) <$> mem s !! (data + i * stride)) /\
    (forall a, ~ element data stride length a -> mem s' !! a = mem s !! a).
Proof.
  intros Hstride Hholds Hn.
  set (g := fun k => data + k * stride).
  assert (Hin : forall k, 0 <= k < 0 + Z.of_nat (Z.to_nat length) ->
            subscript data k stride = g k /\ accessible s (g k)).
  { intros k Hk.
    destruct (strided_in_bounds s data stride length n k) as (_ & ? & ?);
      [done..|lia|done]. }
  destruct (sweep_loop (scale_ this) g g (Z.to_nat length) 0 s)
    as (s' & Hrun & Hobj & Htr & Hframe & _ & Hval).
  { intros k Hk. split; by apply Hin. }
  exists (log (EvPrint "examples::Fft_1024::in_place called") s').
  split; [|split; [|split; [|split]]].
  - unfold in_place, for_loop. apply (then_print _ _ s s' tt).
    erewrite for_upto_ext; [exact Hrun|].
    intros k Hk. destruct (Hin k Hk) as [-> _]. done.
  - done.
  - simpl. rewrite Htr. by rewrite <- app_assoc.
  - intros i Hi. assert (Hi' : 0 <= i < 0 + Z.of_nat (Z.to_nat length)) by lia.
    destruct (Hin i Hi') as [_ [_ [x Hx]]]. simpl. fold (g i).
    rewrite Hx; simpl. apply Hval; try done.
    + intros j k Hj Hk Heq. apply strided_injective in Heq; lia.
    + intros j k _ _. by apply strided_injective.
  - intros a Ha. simpl. apply Hframe.
    intros k Hk. by apply (not_element_ne data stride length).
Qed.

(** C3. [in_place(data, stride, length)], for a stride of at least one on
    a buffer that holds the elements it addresses: the call is defined; it
    sets each element [data[i * stride]], [0 <= i < length], to its old
    value times the scale factor of the backend, reading it once and
    writing it once; every other address keeps its value and is neither
    read nor written. *)
Theorem in_place_scales_each_element_once this s data stride length n :
  1 <= stride -> holds s data n -> (length - 1) * stride + 1 <= n ->
  exists s' evs,
    in_place this data stride length s = Some (tt, s') /\
    trace s' = trace s ++ evs /\
    (forall i, 0 <= i < length ->
       mem s' !! (data + i * stride)
       = (fun x => cscale x (scale_ this)) <$> mem s !! (data + i * stride) /\
       loads_of (data + i * stride) evs = 1%nat /\
       stores_of (data + i * stride) evs = 1%nat) /\
    (forall a, ~ element data stride length a ->
       mem s' !! a = mem s !! a /\
       loads_of a evs = 0%nat /\ stores_of a evs = 0%nat).
Proof.
  intros Hstride Hholds Hn.
  destruct (in_place_run this s data stride length n Hstride Hholds Hn)
    as (s' & Hrun & _ & Htr & Helem & Hother).
  set (g := fun k => data + k * stride) in *.
  exists s', (sweep (Z.to_nat length) 0 g g
                ++ [EvPrint "examples::Fft_1024::in_place called"]).
  split; [done|]. split; [done|]. split.
  - intros i Hi. split; [by apply Helem|].
    assert (Hi' : 0 <= i < 0 + Z.of_nat (Z.to_nat length)) by lia.
    assert (Hinj : forall j, 0 <= j < 0 + Z.of_nat (Z.to_nat length) ->
              g j = g i -> j = i).
    { intros j _. by apply strided_injective. }
    rewrite loads_of_then_print, stores_of_then_print. split.
    + by apply (loads_of_sweep_once g g).
    + by apply (stores_of_sweep_once g g).
  - intros a Ha. split; [by apply Hother|].
    assert (Hne : forall k, 0 <= k < 0 + Z.of_nat (Z.to_nat length) -> g k <> a).
    { intros k Hk. by apply (not_element_ne data stride length). }
    rewrite loads_of_then_print, stores_of_then_print. split.
    + by apply loads_of_sweep_none.
    + by apply stores_of_sweep_none.
Qed.

(** Buffers that occupy disjoint ranges of addresses share no element. *)
Lemma disjoint_ranges_share_no_element
    data_in stride_in data_out stride_out length a :
  1 <= stride_in -> 1 <= stride_out ->
  data_in + (length - 1) * stride_in < data_out \/
  data_out + (length - 1) * stride_out < data_in ->
  element data_in stride_in length a ->
  element data_out stride_out length a -> False.
Proof.
  intros Hsi Hso Hranges (i & Hi & Hai) (j & Hj & Haj). subst a.
  assert (0 <= i * stride_in <= (length - 1) * stride_in) by nia.
  assert (0 <= j * stride_out <= (length - 1) * stride_out) by nia.
  lia.
Qed.

(** C4. [out_of_place(data_in, stride_in, data_out, stride_out, length)],
    for strides of at least one on buffers that hold the elements
    addressed and share no element: the call is defined; it leaves in each
    [data_out[i * stride_out]], [0 <= i < length], the original value of
    [data_in[i * stride_in]] times the scale factor, written once; every
    address that is no such output element keeps its value and is never
    written. *)
Theorem out_of_place_writes_scaled_input this s
    data_in stride_in n_in data_out stride_out n_out length :
  1 <= stride_in -> 1 <= stride_out ->
  holds s data_in n_in -> (length - 1) * stride_in + 1 <= n_in ->
  holds s data_out n_out -> (length - 1) * stride_out + 1 <= n_out ->
  (forall a, element data_in stride_in length a ->
             element data_out stride_out length a -> False) ->
  exists s' evs,
    out_of_place this data_in stride_in data_out stride_out length s
    = Some (tt, s') /\
    trace s' = trace s ++ evs /\
    (forall i, 0 <= i < length ->
       mem s' !! (data_out + i * stride_out)
       = (fun x => cscale x (scale_ this)) <$> mem s !! (data_in + i * stride_in) /\
       stores_of (data_out + i * stride_out) evs = 1%nat) /\
    (forall a, ~ element data_out stride_out length a ->
       mem s' !! a = mem s !! a /\ stores_of a evs = 0%nat).
Proof.
  intros Hsi Hso Hhi Hni Hho Hno Hdisj.
  set (g := fun k => data_in + k * stride_in).
  set (h := fun k => data_out + k * stride_out).
  assert (Hin : forall k, 0 <= k < 0 + Z.of_nat (Z.to_nat length) ->
            subscript data_in k stride_in = g k /\ accessible s (g k)).
  { intros k Hk.
    destruct (strided_in_bounds s data_in stride_in length n_in k)
      as (_ & ? & ?); [done..|lia|done]. }
  assert (Hout : forall k, 0 <= k < 0 + Z.of_nat (Z.to_nat length) ->
            subscript data_out k stride_out = h k /\ accessible s (h k)).
  { intros k Hk.
    destruct (strided_in_bounds s data_out stride_out length n_out k)
      as (_ & ? & ?); [done..|lia|done]. }
  destruct (sweep_loop (scale_ this) g h (Z.to_nat length) 0 s)
    as (s' & Hrun & _ & Htr & Hframe & _ & Hval).
  { intros k Hk. split; [by apply Hin | by apply Hout]. }
  exists (log (EvPrint "examples::Fft_1024::out_of_place called") s'),
         (sweep (Z.to_nat length) 0 g h
            ++ [EvPrint "examples::Fft_1024::out_of_place called"]).
  split; [|split; [|split]].
  - unfold out_of_place, for_loop. apply (then_print _ _ s s' tt).
    erewrite for_upto_ext; [exact Hrun|].
    intros k Hk. destruct (Hin k Hk) as [-> _], (Hout k Hk) as [-> _]. done.
  - simpl. rewrite Htr. by rewrite app_assoc.
  - intros i Hi. assert (Hi' : 0 <= i < 0 + Z.of_nat (Z.to_nat length)) by lia.
    rewrite stores_of_then_print. split.
    + destruct (Hin i Hi') as [_ [_ [x Hx]]]. simpl. fold (g i) (h i).
      rewrite Hx; simpl. apply Hval; try done.
      * intros j k Hj Hk Heq. apply (Hdisj (g k)).
        -- exists k. split; [lia|done].
        -- exists j. split; [lia|done].
      * intros j k _ _. by apply strided_injective.
    + apply (stores_of_sweep_once g h); [done|].
      intros j _. by apply strided_injective.
  - intros a Ha. rewrite stores_of_then_print.
    assert (Hne : forall k, 0 <= k < 0 + Z.of_nat (Z.to_nat length) -> h k <> a).
    { intros k Hk. by apply (not_element_ne data_out stride_out length). }
    split.
    + simpl. by apply Hframe.
    + by apply stores_of_sweep_none.
Qed.

(** C5. When the elements addressed are accessible and no input element is
    an output element, [out_of_place] is defined and only reads its input:
    each [data_in[i * stride_in]] holds its original value afterwards and
    was never written.  More generally, that holds of every address that is
    no output element. *)
Theorem out_of_place_preserves_input this s
    data_in stride_in data_out stride_out length :
  (forall i, 0 <= i < length ->
     accessible s (subscript data_in i stride_in) /\
     accessible s (subscript data_out i stride_out)) ->
  (forall i j, 0 <= i < length -> 0 <= j < length ->
     subscript data_out j stride_out <> subscript data_in i stride_in) ->
  exists s' evs,
    out_of_place this data_in stride_in data_out stride_out length s
    = Some (tt, s') /\
    trace s' = trace s ++ evs /\
    (forall i, 0 <= i < length ->
       mem s' !! subscript data_in i stride_in
       = mem s !! subscript data_in i stride_in /\
       stores_of (subscript data_in i stride_in) evs = 0%nat) /\
    (forall a, (forall j, 0 <= j < length -> subscript data_out j stride_out <> a) ->
       mem s' !! a = mem s !! a /\ stores_of a evs = 0%nat).
Proof.
  intros Hacc Hdisj.
  set (g := fun k => subscript data_in k stride_in).
  set (h := fun k => subscript data_out k stride_out).
  destruct (sweep_loop (scale_ this) g h (Z.to_nat length) 0 s)
    as (s' & Hrun & _ & Htr & Hframe & _ & _).
  { intros k Hk. apply Hacc. lia. }
  exists (log (EvPrint "examples::Fft_1024::out_of_place called") s'),
         (sweep (Z.to_nat length) 0 g h
            ++ [EvPrint "examples::Fft_1024::out_of_place called"]).
  assert (Hgen : forall a,
    (forall j, 0 <= j < length -> subscript data_out j stride_out <> a) ->
    mem (log (EvPrint "examples::Fft_1024::out_of_place called") s') !! a
    = mem s !! a /\
    stores_of a (sweep (Z.to_nat length) 0 g h
                   ++ [EvPrint "examples::Fft_1024::out_of_place called"]) = 0%nat).
  { intros a Ha. rewrite stores_of_then_print.
    assert (Hne : forall k, 0 <= k < 0 + Z.of_nat (Z.to_nat length) -> h k <> a).
    { intros k Hk. apply Ha. lia. }
    split; [simpl; by apply Hframe | by apply stores_of_sweep_none]. }
  split; [|split; [|split]].
  - unfold out_of_place, for_loop. by apply (then_print _ _ s s' tt).
  - simpl. rewrite Htr. by rewrite app_assoc.
  - intros i Hi. apply Hgen. intros j Hj. by apply Hdisj.
  - exact Hgen.
Qed.

(** C10. With strides of at least one and buffers of at least
    [(length - 1) * stride + 1] elements, every offset [i * stride] that
    [in_place] and [out_of_place] compute for [0 <= i < length] lies inside
    its buffer, every element they address is accessible, and neither
    call goes wrong. *)
Theorem accesses_stay_in_bounds this s data stride n data' stride' n' length :
  1 <= stride -> holds s data n -> (length - 1) * stride + 1 <= n ->
  1 <= stride' -> holds s data' n' -> (length - 1) * stride' + 1 <= n' ->
  (forall i, 0 <= i < length ->
     (0 <= wrap (i * stride) < n /\ accessible s (subscript data i stride)) /\
     (0 <= wrap (i * stride') < n' /\ accessible s (subscript data' i stride'))) /\
  is_Some (in_place this data stride length s) /\
  is_Some (out_of_place this data stride data' stride' length s).
Proof.
  intros Hs Hh Hn Hs' Hh' Hn'.
  assert (Hb : forall i, 0 <= i < length ->
    (0 <= wrap (i * stride) < n /\ accessible s (subscript data i stride)) /\
    (0 <= wrap (i * stride') < n' /\ accessible s (subscript data' i stride'))).
  { intros i Hi.
    destruct (strided_in_bounds s data stride length n i) as (Ho & He & Ha);
      [done..|].
    destruct (strided_in_bounds s data' stride' length n' i) as (Ho' & He' & Ha');
      [done..|].
    rewrite He, He'. unfold subscript in He, He'.
    replace (wrap (i * stride)) with (i * stride) by lia.
    replace (wrap (i * stride')) with (i * stride') by lia.
    done. }
  split; [exact Hb|]. split.
  - destruct (sweep_loop (scale_ this) (fun k => subscript data k stride)
                (fun k => subscript data k stride) (Z.to_nat length) 0 s)
      as (s' & Hrun & _).
    { intros k Hk. destruct (Hb k) as [[_ Ha] _]; [lia|done]. }
    unfold in_place, for_loop.
    by rewrite (then_print _ _ s s' tt).
  - destruct (sweep_loop (scale_ this) (fun k => subscript data k stride)
                (fun k => subscript data' k stride') (Z.to_nat length) 0 s)
      as (s' & Hrun & _).
    { intros k Hk. destruct (Hb k) as [[_ Ha] [_ Ha']]; [lia|done]. }
    unfold out_of_place, for_loop.
    by rewrite (then_print _ _ s s' tt).
Qed.

(** C8. A backend constructed with scale 1.0, applied in place to 1024
    unit-valued elements (at any stride of at least one), leaves each of
    them, and the whole of memory, exactly as it was. *)
Theorem in_place_unit_scale_is_identity dom s0 this s1 s data stride n :
  Fft_1024_ctor dom f_one s0 = Some (this, s1) ->
  1 <= stride -> holds s data n -> (1024 - 1) * stride + 1 <= n ->
  unit_valued s data stride 1024 ->
  exists s',
    in_place this data stride 1024 s = Some (tt, s') /\
    unit_valued s' data stride 1024 /\
    mem s' = mem s.
Proof.
  intros Hctor Hstride Hholds Hn Hunit.
  assert (Hthis : scale_ this = f_one).
  { unfold Fft_1024_ctor, bind, print, ret in Hctor. by inversion Hctor. }
  destruct (in_place_run this s data stride 1024 n Hstride Hholds Hn)
    as (s' & Hrun & _ & _ & Helem & Hother).
  assert (Hsame : forall i, 0 <= i < 1024 ->
            mem s' !! (data + i * stride) = mem s !! (data + i * stride)).
  { intros i Hi. rewrite (Helem i Hi), (Hunit i Hi), Hthis. done. }
  exists s'. split; [done|]. split.
  - intros i Hi. rewrite Hsame by done. by apply Hunit.
  - apply map_eq. intros a.
    destruct (decide (0 <= (a - data) `div` stride < 1024
                      /\ (a - data) `mod` stride = 0)) as [[Hq Hr]|Hno].
    + replace a with (data + (a - data) `div` stride * stride).
      * by apply Hsame.
      * pose proof (Z.div_mod (a - data) stride). lia.
    + apply Hother. intros (i & Hi & ->). apply Hno.
      replace (data + i * stride - data) with (i * stride) by lia.
      rewrite Z.div_mul, Z.mod_mul by lia. done.
Qed.

End Transforms.

(** ** Layout negotiation *)

Section Negotiation.
Context {Rest : Type}.
Implicit Types (ls : gmap ref (Rt_layout Rest)) (l : Rt_layout Rest).

(** Compare two stores built by assignments through [a] and [b] at the
    reference [r]. *)
Ltac layout_lookups r a b :=
  destruct (decide (r = a)) as [->|?];
    [ by rewrite !lookup_insert_eq |];
  destruct (decide (r = b)) as [->|?];
    repeat first [ rewrite lookup_insert_eq
                 | rewrite lookup_insert_ne by congruence ].

Lemma required_idem l : required (required l) = required l.
Proof. done. Qed.

(** The one-buffer overload replaces the object referred to by what the
    backend requires; with a dangling reference it is undefined. *)
Lemma query_layout_run ls (r : ref) :
  query_layout r ls
  = match ls !! r with
    | Some l => Some (tt, <[r := required l]> ls)
    | None => None
    end.
Proof.
  unfold query_layout, bind, assign_packing, assign_storage_format, ret.
  destruct (ls !! r) as [l|] eqn:Hr; [|done].
  rewrite lookup_insert_eq; simpl. by rewrite insert_insert_eq.
Qed.

(** The two-buffer overload does so for both objects, which may be one. *)
Lemma query_layout2_run ls (rtl_in rtl_out : ref) :
  query_layout2 rtl_in rtl_out ls
  = match ls !! rtl_in, ls !! rtl_out with
    | Some l_in, Some l_out =>
        Some (tt, <[rtl_in := required l_in]> (<[rtl_out := required l_out]> ls))
    | _, _ => None
    end.
Proof.
  unfold query_layout2, bind, assign_packing, assign_storage_format, ret.
  destruct (ls !! rtl_out) as [l_out|] eqn:Hout;
    [|by destruct (ls !! rtl_in)].
  destruct (decide (rtl_in = rtl_out)) as [->|Hne].
  - rewrite Hout. repeat (rewrite lookup_insert_eq; simpl).
    by rewrite !insert_insert_eq.
  - rewrite lookup_insert_ne by done.
    destruct (ls !! rtl_in) as [l_in|] eqn:Hin; [|done]. simpl.
    repeat first [ rewrite lookup_insert_eq
                 | rewrite lookup_insert_ne by done
                 | progress simpl ].
    f_equal. f_equal. apply map_eq. intros r'.
    by layout_lookups r' rtl_in rtl_out.
Qed.

(** C6. Layout negotiation is idempotent: negotiating twice in a row on
    the same layout object, or the same pair of layout objects, leads to
    the same outcome as negotiating once. *)
Theorem query_layout_idempotent ls (r rtl_in rtl_out : ref) :
  (query_layout r ;;; query_layout r) ls = query_layout r ls /\
  (query_layout2 rtl_in rtl_out ;;; query_layout2 rtl_in rtl_out) ls
  = query_layout2 rtl_in rtl_out ls.
Proof.
  split.
  - unfold bind at 1. rewrite query_layout_run.
    destruct (ls !! r) as [l|] eqn:Hr; [|done].
    rewrite query_layout_run, lookup_insert_eq.
    by rewrite insert_insert_eq.
  - unfold bind at 1. rewrite query_layout2_run.
    destruct (ls !! rtl_in) as [l_in|] eqn:Hin; [|done].
    destruct (ls !! rtl_out) as [l_out|] eqn:Hout; [|done].
    rewrite query_layout2_run, lookup_insert_eq.
    destruct (decide (rtl_in = rtl_out)) as [->|Hne].
    + rewrite lookup_insert_eq. by rewrite !insert_insert_eq.
    + rewrite lookup_insert_ne, lookup_insert_eq by done.
      rewrite required_idem. f_equal. f_equal. apply map_eq. intros r'.
      by layout_lookups r' rtl_in rtl_out.
Qed.

(** C9. Whatever layout is proposed, [query_layout] leaves the object with
    dense packing and the interleaved-complex storage format and with its
    other fields as they were; in the two-buffer form that holds of both
    objects; no other layout object changes. *)
Theorem query_layout_ignores_proposal ls (r rtl_in rtl_out : ref) l l_in l_out :
  ls !! r = Some l -> ls !! rtl_in = Some l_in -> ls !! rtl_out = Some l_out ->
  (exists ls',
     query_layout r ls = Some (tt, ls') /\
     ls' !! r = Some {| packing := dense;
                        storage_format := interleaved_complex;
                        rest := rest l |} /\
     forall r', r' <> r -> ls' !! r' = ls !! r') /\
  (exists ls',
     query_layout2 rtl_in rtl_out ls = Some (tt, ls') /\
     ls' !! rtl_in = Some {| packing := dense;
                             storage_format := interleaved_complex;
                             rest := rest l_in |} /\
     ls' !! rtl_out = Some {| packing := dense;
                              storage_format := interleaved_complex;
                              rest := rest l_out |} /\
     forall r', r' <> rtl_in -> r' <> rtl_out -> ls' !! r' = ls !! r').
Proof.
  intros Hr Hin Hout. split.
  - exists (<[r := required l]> ls). rewrite query_layout_run, Hr.
    split; [done|]. split; [by rewrite lookup_insert_eq|].
    intros r' Hne. by rewrite lookup_insert_ne.
  - exists (<[rtl_in := required l_in]> (<[rtl_out := required l_out]> ls)).
    rewrite query_layout2_run, Hin, Hout.
    split; [done|]. split; [by rewrite lookup_insert_eq|]. split.
    + destruct (decide (rtl_in = rtl_out)) as [->|Hne].
      * rewrite lookup_insert_eq.
        assert (l_in = l_out) as -> by congruence. done.
      * by rewrite lookup_insert_ne, lookup_insert_eq.
    + intros r' Hne1 Hne2. by rewrite !lookup_insert_ne.
Qed.
End Negotiation.

(** ** The evaluator and dispatch *)

Section Dispatch.
Implicit Types (s : Machine) (d : Domain1) (scale : float).

(** C1. The evaluator is statically valid for every operation it is
    specialised for (every [N]); it is valid at runtime exactly when the
    domain has 1024 elements, whatever the scale. *)
Theorem evaluator_validity :
  (forall N, Evaluator.specialises (fft_type N) = true /\
             Evaluator.ct_valid N = true /\
             static_valid user_candidate (fft_type N) = true) /\
  (forall d scale, Evaluator.rt_valid d scale = true <-> Domain_size d = 1024) /\
  (forall d scale scale', Evaluator.rt_valid d scale = Evaluator.rt_valid d scale').
Proof.
  split; [done|]. split; [|done].
  intros d scale. unfold Evaluator.rt_valid. apply Z.eqb_eq.
Qed.

(** The constructor of [Fft_1024] stores the scale and prints its line. *)
Lemma Fft_1024_ctor_run d scale s :
  Fft_1024_ctor d scale s
  = Some ({| scale_ := scale |},
          log (EvPrint "examples::Fft_1024 constructor called") s).
Proof. done. Qed.

(** [exec] puts a new [Fft_1024] with the given scale into fresh storage. *)
Lemma exec_run d scale s :
  Evaluator.exec d scale s
  = Some (Auto_ptr (fresh (dom (objects s))),
          {| mem := mem s;
             objects := <[fresh (dom (objects s)) :=
                           User_backend {| scale_ := scale |}]> (objects s);
             trace := trace s ++ [EvPrint "examples::Fft_1024 constructor called"] |}).
Proof. done. Qed.

(** Both candidates of the registry match the signature of [fft_type]. *)
Lemma candidates_for_fft_type N :
  candidates_for registry (fft_type N) = [user_candidate; system_candidate].
Proof. done. Qed.

(** When the evaluator is valid at runtime, dispatch is its [exec]. *)
Lemma select_user N d scale :
  Evaluator.rt_valid d scale = true ->
  select registry (fft_type N) d scale
  = (let* b := Evaluator.exec d scale in ret (inr b)).
Proof.
  intros Hrt. unfold select. rewrite candidates_for_fft_type. simpl.
  by rewrite Hrt.
Qed.

(** Otherwise dispatch falls through to the system candidate. *)
Lemma select_system N d scale :
  Evaluator.rt_valid d scale = false ->
  select registry (fft_type N) d scale
  = (let* b := new_ (ret (System_backend d scale)) in ret (inr b)).
Proof.
  intros Hrt. unfold select. rewrite candidates_for_fft_type. simpl.
  by rewrite Hrt.
Qed.

(** C2. Constructing the Fft facade for a domain of 1024 elements selects
    the [Fft_1024] backend, whose constructor runs; for a domain of 2048
    elements the evaluator, statically valid, is rejected by its runtime
    predicate and the system backend is selected. *)
Theorem dispatch_by_length N scale s d1 d2 :
  Domain_size d1 = 1024 -> Domain_size d2 = 2048 ->
  Fft_ctor (fft_type N) d1 scale s
  = Some (inr {| backend_ := Auto_ptr (fresh (dom (objects s))) |},
          {| mem := mem s;
             objects := <[fresh (dom (objects s)) :=
                           User_backend {| scale_ := scale |}]> (objects s);
             trace := trace s ++ [EvPrint "examples::Fft_1024 constructor called"] |})
  /\ Evaluator.ct_valid N = true
  /\ Evaluator.rt_valid d2 scale = false
  /\ Fft_ctor (fft_type N) d2 scale s
     = Some (inr {| backend_ := Auto_ptr (fresh (dom (objects s))) |},
             {| mem := mem s;
                objects := <[fresh (dom (objects s)) :=
                              System_backend d2 scale]> (objects s);
                trace := trace s |}).
Proof.
  intros H1 H2.
  assert (Hrt1 : Evaluator.rt_valid d1 scale = true).
  { unfold Evaluator.rt_valid. by rewrite H1. }
  assert (Hrt2 : Evaluator.rt_valid d2 scale = false).
  { unfold Evaluator.rt_valid. by rewrite H2. }
  split; [|split; [done|split; [done|]]].
  - unfold Fft_ctor. rewrite (select_user N d1 scale Hrt1).
    unfold bind. by rewrite exec_run.
  - unfold Fft_ctor. by rewrite (select_system N d2 scale Hrt2).
Qed.

(** C7. When the evaluator is the candidate selected, dispatch is a call
    of [exec] with the domain and scale of the caller; [exec] returns the
    pointer to a new object (its storage held no object before), which is
    an [Fft_1024] whose scale factor is the scale passed; the constructor
    printed its line, and no other object and no array element changed. *)
Theorem exec_constructs_owned_backend N d scale s :
  Evaluator.rt_valid d scale = true ->
  select registry (fft_type N) d scale s
  = (let* b := Evaluator.exec d scale in ret (inr b)) s /\
  exists p s',
    Evaluator.exec d scale s = Some (Auto_ptr p, s') /\
    objects s !! p = None /\
    objects s' !! p = Some (User_backend {| scale_ := scale |}) /\
    (forall q, q <> p -> objects s' !! q = objects s !! q) /\
    mem s' = mem s /\
    trace s' = trace s ++ [EvPrint "examples::Fft_1024 constructor called"].
Proof.
  intros Hrt. split; [by rewrite (select_user N d scale Hrt)|].
  eexists _, _. split; [apply exec_run|]. simpl.
  split; [|split; [by rewrite lookup_insert_eq|split; [|done]]].
  - apply not_elem_of_dom, is_fresh.
  - intros q Hq. by rewrite lookup_insert_ne.
Qed.
End Dispatch.

(** ** Further properties of the transforms *)

Section Definedness.
Context `{WordSize}.
Implicit Types (s : Machine) (this : Fft_1024).

Lemma accessible_dom s a : accessible s a <-> valid_addr a = true /\ a ∈ dom (mem s).
Proof. unfold accessible. by rewrite elem_of_dom. Qed.

(** An iteration that is defined found both addresses accessible. *)
Lemma iteration_inv sc s src dst u s1 :
  (let* y := load src in store dst (cscale y sc)) s = Some (u, s1) ->
  accessible s src /\ accessible s dst /\
  exists x, mem s !! src = Some x /\
    s1 = {| mem := <[dst := cscale x sc]> (mem s);
            objects := objects s;
            trace := trace s ++ [EvLoad src; EvStore dst] |}.
Proof.
  unfold bind, load, store, accessible. intros Hrun.
  destruct (valid_addr src) eqn:Hvs; [|done].
  destruct (mem s !! src) as [x|] eqn:Hx; [|done].
  destruct (valid_addr dst) eqn:Hvd; [|done]. simpl in Hrun.
  destruct (mem s !! dst) as [y|] eqn:Hy; [|done].
  inversion Hrun; subst. rewrite <- app_assoc.
  split; [by eauto|]. split; [by eauto|]. by exists x.
Qed.

(** A loop that is defined found every address it touches accessible, and
    left the set of allocated addresses and the backend objects alone. *)
Lemma sweep_loop_inv sc (g h : Z -> Z) n : forall i s u s',
  for_upto n i (fun k => let* x := load (g k) in store (h k) (cscale x sc)) s
  = Some (u, s') ->
  (forall k, i <= k < i + Z.of_nat n -> accessible s (g k) /\ accessible s (h k)) /\
  dom (mem s') = dom (mem s) /\
  objects s' = objects s.
Proof.
  induction n as [|n IH]; intros i s u s' Hrun.
  { inversion Hrun; subst. split; [intros; lia|done]. }
  simpl in Hrun. unfold bind at 1 in Hrun.
  destruct ((let* x := load (g i) in store (h i) (cscale x sc)) s)
    as [[u1 s1]|] eqn:Hbody; [|done].
  destruct (iteration_inv _ _ _ _ _ _ Hbody) as (Hg & Hh & x & Hx & ->).
  destruct (IH _ _ _ _ Hrun) as (Hacc & Hdom & Hobj). simpl in *.
  assert (Hd1 : dom (<[h i := cscale x sc]> (mem s)) = dom (mem s)).
  { rewrite dom_insert_L. destruct Hh as [_ Hh].
    apply subseteq_union_1_L, singleton_subseteq_l. by apply elem_of_dom. }
  split; [|split; [congruence|done]].
  intros k Hk. destruct (decide (k = i)) as [->|Hne]; [done|].
  destruct (Hacc k) as [Hgk Hhk]; [lia|].
  rewrite accessible_dom in Hgk, Hhk. simpl in Hgk, Hhk.
  rewrite Hd1 in Hgk, Hhk. by rewrite !accessible_dom.
Qed.

(** The loop of the transforms, from index 0, for any strides. *)
Lemma transform_loop sc s data_in stride_in data_out stride_out length :
  (forall i, 0 <= i < length ->
     accessible s (subscript data_in i stride_in) /\
     accessible s (subscript data_out i stride_out)) ->
  exists s',
    for_loop length (fun i =>
      let* x := load (subscript data_in i stride_in) in
      store (subscript data_out i stride_out) (cscale x sc)) s = Some (tt, s') /\
    objects s' = objects s /\
    dom (mem s') = dom (mem s) /\
    trace s' = trace s ++ sweep (Z.to_nat length) 0
                            (fun k => subscript data_in k stride_in)
                            (fun k => subscript data_out k stride_out) /\
    (forall a, (forall j, 0 <= j < length -> subscript data_out j stride_out <> a) ->
       mem s' !! a = mem s !! a) /\
    ((forall j k, 0 <= j < k -> k < length ->
        subscript data_out j stride_out <> subscript data_in k stride_in) ->
     (forall j k, 0 <= j < length -> 0 <= k < length ->
        subscript data_out j stride_out = subscript data_out k stride_out -> j = k) ->
     forall k x, 0 <= k < length ->
       mem s !! subscript data_in k stride_in = Some x ->
       mem s' !! subscript data_out k stride_out = Some (cscale x sc)).
Proof.
  intros Hacc. unfold for_loop.
  destruct (sweep_loop sc (fun k => subscript data_in k stride_in)
              (fun k => subscript data_out k stride_out) (Z.to_nat length) 0 s)
    as (s' & Hrun & Hobj & Htr & Hframe & _ & Hval).
  { intros k Hk. apply Hacc. lia. }
  destruct (sweep_loop_inv _ _ _ _ _ _ _ _ Hrun) as (_ & Hdom & _).
  exists s'. split; [done|]. split; [done|]. split; [done|]. split; [done|].
  split.
  - intros a Ha. apply Hframe. intros k Hk. apply Ha. lia.
  - intros Hlater Hinj k x Hk Hx. apply Hval; try done; try lia.
    + intros j k' Hj Hk'. apply Hlater; lia.
    + intros j k' Hj Hk'. apply Hinj; lia.
Qed.

Lemma transform_loop_inv sc s data_in stride_in data_out stride_out length u s' :
  for_loop length (fun i =>
    let* x := load (subscript data_in i stride_in) in
    store (subscript data_out i stride_out) (cscale x sc)) s = Some (u, s') ->
  forall i, 0 <= i < length ->
    accessible s (subscript data_in i stride_in) /\
    accessible s (subscript data_out i stride_out).
Proof.
  unfold for_loop. intros Hrun i Hi.
  destruct (sweep_loop_inv _ _ _ _ _ _ _ _ Hrun) as (Hacc & _).
  apply (Hacc i). lia.
Qed.



End Definedness.

Section Behaviour.
Context `{WordSize}.
Implicit Types (s : Machine) (this : Fft_1024).

(** What a defined run of the loop leaves behind. *)
Lemma transform_loop_effects sc s data_in stride_in data_out stride_out length u s' :
  for_loop length (fun i =>
    let* x := load (subscript data_in i stride_in) in
    store (subscript data_out i stride_out) (cscale x sc)) s = Some (u, s') ->
  objects s' = objects s /\
  dom (mem s') = dom (mem s) /\
  trace s' = trace s ++ sweep (Z.to_nat length) 0
                          (fun k => subscript data_in k stride_in)
                          (fun k => subscript data_out k stride_out).
Proof.
  intros Hrun.
  destruct (transform_loop sc s data_in stride_in data_out stride_out length)
    as (s2 & Hrun2 & Hobj & Hdom & Htr & _).
  { by apply (transform_loop_inv _ _ _ _ _ _ _ _ _ Hrun). }
  rewrite Hrun in Hrun2. by inversion Hrun2; subst.
Qed.

Lemma then_print_inv {A : Type} (c : M Machine A) line s u s' :
  (c ;;; print line) s = Some (u, s') ->
  exists x s1, c s = Some (x, s1) /\ s' = log (EvPrint line) s1.
Proof.
  unfold bind, print. destruct (c s) as [[x s1]|]; [|done].
  intros Hrun. inversion Hrun; subst. by exists x, s1.
Qed.

(** X3. A defined call of [in_place], for any stride: it visits the indices
    in ascending order, reads each element just before writing it, and
    prints its line last; it allocates and frees no storage and changes no
    backend object. *)
Theorem in_place_order_and_storage this s data stride length s' :
  in_place this data stride length s = Some (tt, s') ->
  trace s'
  = trace s ++ sweep (Z.to_nat length) 0 (fun k => subscript data k stride)
                 (fun k => subscript data k stride)
            ++ [EvPrint "examples::Fft_1024::in_place called"] /\
  dom (mem s') = dom (mem s) /\
  objects s' = objects s.
Proof.
  intros Hrun. apply then_print_inv in Hrun as (u & s1 & Hloop & ->).
  apply transform_loop_effects in Hloop as (Hobj & Hdom & Htr).
  simpl. rewrite Htr. by rewrite <- app_assoc.
Qed.

(** X4. A defined call of [out_of_place], for any strides: in ascending
    order of the index it reads the input element and then writes the output
    element, and prints its line last; it allocates and frees no storage and
    changes no backend object. *)
Theorem out_of_place_order_and_storage this s
    data_in stride_in data_out stride_out length s' :
  out_of_place this data_in stride_in data_out stride_out length s = Some (tt, s') ->
  trace s'
  = trace s ++ sweep (Z.to_nat length) 0 (fun k => subscript data_in k stride_in)
                 (fun k => subscript data_out k stride_out)
            ++ [EvPrint "examples::Fft_1024::out_of_place called"] /\
  dom (mem s') = dom (mem s) /\
  objects s' = objects s.
Proof.
  intros Hrun. apply then_print_inv in Hrun as (u & s1 & Hloop & ->).
  apply transform_loop_effects in Hloop as (Hobj & Hdom & Htr).
  simpl. rewrite Htr. by rewrite <- app_assoc.
Qed.

(** X5. [out_of_place] given one buffer as input and as output does to
    memory what [in_place] does: both are undefined, or both are defined and
    leave the same memory and objects, with the same accesses in the same
    order; only the line printed differs. *)
Theorem out_of_place_on_one_buffer this s data stride length :
  match in_place this data stride length s,
        out_of_place this data stride data stride length s with
  | Some (_, s1), Some (_, s2) =>
      mem s2 = mem s1 /\ objects s2 = objects s1 /\
      exists evs,
        trace s1 = evs ++ [EvPrint "examples::Fft_1024::in_place called"] /\
        trace s2 = evs ++ [EvPrint "examples::Fft_1024::out_of_place called"]
  | None, None => True
  | _, _ => False
  end.
Proof.
  unfold in_place, out_of_place, bind.
  destruct (for_loop length _ s) as [[u s1]|]; [|done].
  simpl. split; [done|]. split; [done|]. by exists (trace s1).
Qed.

Lemma subscript_stride_zero data i : subscript data i 0 = data.
Proof. unfold subscript, wrap. rewrite Z.mul_0_r, Zmod_0_l. lia. Qed.

Lemma loads_of_sweep_const a n i :
  loads_of a (sweep n i (fun _ => a) (fun _ => a)) = n.
Proof.
  revert i. induction n as [|n IH]; intros i; [done|].
  change (sweep (Datatypes.S n) i (fun _ => a) (fun _ => a))
    with ([EvLoad a; EvStore a] ++ sweep n (i + 1) (fun _ => a) (fun _ => a)).
  rewrite loads_of_app, IH. unfold loads_of; simpl. by rewrite Z.eqb_refl.
Qed.

Lemma stores_of_sweep_const a n i :
  stores_of a (sweep n i (fun _ => a) (fun _ => a)) = n.
Proof.
  revert i. induction n as [|n IH]; intros i; [done|].
  change (sweep (Datatypes.S n) i (fun _ => a) (fun _ => a))
    with ([EvLoad a; EvStore a] ++ sweep n (i + 1) (fun _ => a) (fun _ => a)).
  rewrite stores_of_app, IH. unfold stores_of; simpl. by rewrite Z.eqb_refl.
Qed.

(** Scaling one address [n] times. *)
Lemma repeat_at sc a n : forall i s x,
  valid_addr a = true -> mem s !! a = Some x ->
  exists s',
    for_upto n i (fun _ => let* y := load a in store a (cscale y sc)) s
    = Some (tt, s') /\
    mem s' = <[a := Nat.iter n (fun y => cscale y sc) x]> (mem s) /\
    trace s' = trace s ++ sweep n i (fun _ => a) (fun _ => a).
Proof.
  induction n as [|n IH]; intros i s x Hv Hx.
  { exists s. simpl. rewrite app_nil_r. by rewrite insert_id. }
  destruct (iteration_defined sc s a a) as (x0 & Hx0 & Hbody);
    [by split; eauto..|].
  assert (x0 = x) as -> by congruence.
  set (s1 := {| mem := <[a := cscale x sc]> (mem s);
                objects := objects s;
                trace := trace s ++ [EvLoad a; EvStore a] |}) in *.
  destruct (IH (i + 1) s1 (cscale x sc) Hv) as (s' & Hrun & Hmem & Htr);
    [|exists s'; split; [|split]].
  - simpl. apply lookup_insert_eq.
  - simpl. unfold bind at 1. by rewrite Hbody.
  - rewrite Hmem. unfold s1. cbn [mem]. rewrite insert_insert_eq.
    f_equal. symmetry. apply (Nat.iter_succ_r n (fun y => cscale y sc) x).
  - rewrite Htr. simpl. by rewrite <- app_assoc.
Qed.

(** X6. With stride 0 every iteration addresses [data[0]]: [in_place]
    multiplies that one element by the scale factor [length] times, reading
    and writing it [length] times, and changes nothing else. *)
Theorem in_place_stride_zero_repeats this s data length x :
  valid_addr data = true -> mem s !! data = Some x ->
  exists s' evs,
    in_place this data 0 length s = Some (tt, s') /\
    mem s' = <[data := Nat.iter (Z.to_nat length)
                         (fun y => cscale y (scale_ this)) x]> (mem s) /\
    trace s' = trace s ++ evs /\
    loads_of data evs = Z.to_nat length /\
    stores_of data evs = Z.to_nat length.
Proof.
  intros Hv Hx.
  destruct (repeat_at (scale_ this) data (Z.to_nat length) 0 s x Hv Hx)
    as (s' & Hrun & Hmem & Htr).
  exists (log (EvPrint "examples::Fft_1024::in_place called") s'),
         (sweep (Z.to_nat length) 0 (fun _ => data) (fun _ => data)
            ++ [EvPrint "examples::Fft_1024::in_place called"]).
  split; [|split; [done|split; [|split]]].
  - unfold in_place, for_loop. apply (then_print _ _ s s' tt).
    erewrite for_upto_ext; [exact Hrun|].
    intros k _. by rewrite subscript_stride_zero.
  - simpl. rewrite Htr. by rewrite <- app_assoc.
  - by rewrite loads_of_then_print, loads_of_sweep_const.
  - by rewrite stores_of_then_print, stores_of_sweep_const.
Qed.

(** With no elements to visit ([length <= 0]) both transforms only print
    their line: they are defined for any pointers and strides, also ones
    that address no storage, and read and write nothing. *)
Lemma transforms_of_no_elements this s data stride data' stride' length :
  length <= 0 ->
  in_place this data stride length s
  = Some (tt, log (EvPrint "examples::Fft_1024::in_place called") s) /\
  out_of_place this data stride data' stride' length s
  = Some (tt, log (EvPrint "examples::Fft_1024::out_of_place called") s).
Proof.
  intros Hlen. unfold in_place, out_of_place, for_loop.
  replace (Z.to_nat length) with 0%nat by lia. done.
Qed.
End Behaviour.

(** ** Scaling by one and scaling twice *)



Section Scaling.
Context `{WordSize}.
Implicit Types (s : Machine) (this : Fft_1024).


(** A defined [in_place] keeps every accessible address accessible. *)
Lemma in_place_keeps_holds this s data stride length u s' data' n :
  in_place this data stride length s = Some (u, s') ->
  holds s data' n -> holds s' data' n.
Proof.
  intros Hrun Hholds k Hk.
  apply then_print_inv in Hrun as (u1 & s1 & Hloop & ->).
  apply transform_loop_effects in Hloop as (_ & Hdom & _).
  apply accessible_dom. simpl. rewrite Hdom. apply accessible_dom.
  by apply Hholds.
Qed.

(** X7. Two calls of [in_place] in a row on one buffer, by backends with
    scale factors [a] and [b]: each element ends as its old value times [a]
    and then times [b]; every other address keeps its value. *)
Theorem in_place_twice_composes this this' s data stride length n :
  1 <= stride -> holds s data n -> (length - 1) * stride + 1 <= n ->
  exists s'',
    (in_place this data stride length ;;; in_place this' data stride length) s
    = Some (tt, s'') /\
    (forall i, 0 <= i < length ->
       mem s'' !! (data + i * stride)
       = (fun x => cscale (cscale x (scale_ this)) (scale_ this'))
           <$> mem s !! (data + i * stride)) /\
    (forall a, ~ element data stride length a -> mem s'' !! a = mem s !! a).
Proof.
  intros Hstride Hholds Hn.
  destruct (in_place_run this s data stride length n Hstride Hholds Hn)
    as (s1 & Hrun1 & _ & _ & Helem1 & Hother1).
  assert (Hholds1 : holds s1 data n).
  { by apply (in_place_keeps_holds this s data stride length tt s1). }
  destruct (in_place_run this' s1 data stride length n Hstride Hholds1 Hn)
    as (s2 & Hrun2 & _ & _ & Helem2 & Hother2).
  exists s2. split; [|split].
  - unfold bind. by rewrite Hrun1.
  - intros i Hi. rewrite (Helem2 i Hi), (Helem1 i Hi).
    by destruct (mem s !! (data + i * stride)).
  - intros a Ha. by rewrite (Hother2 a Ha), (Hother1 a Ha).
Qed.


End Scaling.

(** ** Further properties of negotiation and construction *)

Section Overloads.
Context {Rest : Type}.
Implicit Types (ls : gmap ref (Rt_layout Rest)) (l : Rt_layout Rest).

(** X10. The two-buffer [query_layout] is the one-buffer [query_layout] on
    each of the two objects, in either order; that includes references that
    dangle (all are undefined) and references to one object. *)
Theorem query_layout2_is_query_layout_on_each ls (rtl_in rtl_out : ref) :
  query_layout2 rtl_in rtl_out ls
  = (query_layout rtl_out ;;; query_layout rtl_in) ls /\
  query_layout2 rtl_in rtl_out ls
  = (query_layout rtl_in ;;; query_layout rtl_out) ls.
Proof.
  rewrite query_layout2_run. unfold bind. rewrite !query_layout_run. split.
  - destruct (ls !! rtl_out) as [l_out|] eqn:Hout;
      [|by destruct (ls !! rtl_in)].
    rewrite query_layout_run.
    destruct (decide (rtl_in = rtl_out)) as [->|Hne].
    + rewrite Hout, lookup_insert_eq. by rewrite required_idem.
    + rewrite lookup_insert_ne by done. by destruct (ls !! rtl_in).
  - destruct (ls !! rtl_in) as [l_in|] eqn:Hin; [|done].
    rewrite query_layout_run.
    destruct (decide (rtl_in = rtl_out)) as [<-|Hne].
    + rewrite Hin, lookup_insert_eq. by rewrite required_idem.
    + rewrite lookup_insert_ne by done.
      destruct (ls !! rtl_out) as [l_out|]; [|done].
      by rewrite insert_insert_ne.
Qed.

Lemma required_id l :
  packing l = dense -> storage_format l = interleaved_complex -> required l = l.
Proof. destruct l. simpl. by intros -> ->. Qed.

(** X11. When the caller's layout objects already are dense and interleaved
    complex, negotiation changes nothing: both overloads return and leave
    the store of layout objects as it was. *)
Theorem query_layout_keeps_required_layout ls (rtl_in rtl_out : ref) l_in l_out :
  ls !! rtl_in = Some l_in -> ls !! rtl_out = Some l_out ->
  packing l_in = dense -> storage_format l_in = interleaved_complex ->
  packing l_out = dense -> storage_format l_out = interleaved_complex ->
  query_layout rtl_in ls = Some (tt, ls) /\
  query_layout2 rtl_in rtl_out ls = Some (tt, ls).
Proof.
  intros Hin Hout Hpi Hfi Hpo Hfo.
  rewrite query_layout_run, query_layout2_run, Hin, Hout.
  rewrite !required_id by done.
  rewrite (insert_id ls rtl_out l_out Hout).
  by rewrite (insert_id ls rtl_in l_in Hin).
Qed.
End Overloads.

(** X12. Two calls of [exec] return pointers to two different objects, each
    an [Fft_1024] with the scale of its own call; the second call leaves the
    first object alone, and no object that existed before is changed. *)
Theorem exec_twice_gives_distinct_backends d1 scale1 d2 scale2 (s : Machine) :
  exists p1 p2 s',
    (let* b1 := Evaluator.exec d1 scale1 in
     let* b2 := Evaluator.exec d2 scale2 in
     ret (b1, b2)) s = Some ((Auto_ptr p1, Auto_ptr p2), s') /\
    p1 <> p2 /\
    objects s' !! p1 = Some (User_backend {| scale_ := scale1 |}) /\
    objects s' !! p2 = Some (User_backend {| scale_ := scale2 |}) /\
    (forall q, is_Some (objects s !! q) -> objects s' !! q = objects s !! q).
Proof.
  set (p1 := fresh (dom (objects s))).
  set (o1 := <[p1 := User_backend {| scale_ := scale1 |}]> (objects s)).
  set (p2 := fresh (dom o1)).
  assert (Hp1 : objects s !! p1 = None) by apply not_elem_of_dom, is_fresh.
  assert (Hp2 : o1 !! p2 = None) by apply not_elem_of_dom, is_fresh.
  assert (Hne : p1 <> p2).
  { intros Heq. rewrite <- Heq in Hp2. unfold o1 in Hp2.
    by rewrite lookup_insert_eq in Hp2. }
  exists p1, p2. eexists. split; [|split; [done|split; [|split]]].
  - unfold bind at 1. rewrite exec_run. unfold bind at 1. rewrite exec_run.
    reflexivity.
  - simpl. fold p1 o1 p2. rewrite lookup_insert_ne by done.
    apply lookup_insert_eq.
  - simpl. fold p1 o1 p2. apply lookup_insert_eq.
  - intros q [b Hq]. simpl. fold p1 o1 p2.
    rewrite lookup_insert_ne by (intros <-; unfold o1 in Hp2;
      rewrite lookup_insert_ne in Hp2 by done; congruence).
    unfold o1. rewrite lookup_insert_ne by congruence. done.
Qed.

Section Reads.
Context `{WordSize}.
Implicit Types (s : Machine) (this : Fft_1024).

(** X13. [out_of_place], under the conditions of C4, reads each input
    element exactly once and reads nothing else; in particular it never
    reads an output element, so what the output buffer held before the call
    has no influence. *)
Theorem out_of_place_reads_input_once this s
    data_in stride_in n_in data_out stride_out n_out length :
  1 <= stride_in -> 1 <= stride_out ->
  holds s data_in n_in -> (length - 1) * stride_in + 1 <= n_in ->
  holds s data_out n_out -> (length - 1) * stride_out + 1 <= n_out ->
  (forall a, element data_in stride_in length a ->
             element data_out stride_out length a -> False) ->
  exists s' evs,
    out_of_place this data_in stride_in data_out stride_out length s
    = Some (tt, s') /\
    trace s' = trace s ++ evs /\
    (forall i, 0 <= i < length ->
       loads_of (data_in + i * stride_in) evs = 1%nat /\
       loads_of (data_out + i * stride_out) evs = 0%nat) /\
    (forall a, ~ element data_in stride_in length a -> loads_of a evs = 0%nat).
Proof.
  intros Hsi Hso Hhi Hni Hho Hno Hdisj.
  assert (Hin : forall k, 0 <= k < length ->
            subscript data_in k stride_in = data_in + k * stride_in /\
            accessible s (data_in + k * stride_in)).
  { intros k Hk.
    by destruct (strided_in_bounds s data_in stride_in length n_in k)
      as (_ & ? & ?). }
  assert (Hout : forall k, 0 <= k < length ->
            subscript data_out k stride_out = data_out + k * stride_out /\
            accessible s (data_out + k * stride_out)).
  { intros k Hk.
    by destruct (strided_in_bounds s data_out stride_out length n_out k)
      as (_ & ? & ?). }
  destruct (transform_loop (scale_ this) s data_in stride_in
              data_out stride_out length)
    as (s' & Hrun & _ & _ & Htr & _).
  { intros i Hi. destruct (Hin i Hi) as [-> ?], (Hout i Hi) as [-> ?]. done. }
  set (g := fun k => subscript data_in k stride_in) in *.
  set (h := fun k => subscript data_out k stride_out) in *.
  assert (Hnone : forall a, ~ element data_in stride_in length a ->
            loads_of a (sweep (Z.to_nat length) 0 g h
                          ++ [EvPrint "examples::Fft_1024::out_of_place called"])
            = 0%nat).
  { intros a Ha. rewrite loads_of_then_print. apply loads_of_sweep_none.
    intros k Hk Heq. apply Ha. exists k. split; [lia|].
    unfold g in Heq. destruct (Hin k) as [Ek _]; [lia|]. congruence. }
  exists (log (EvPrint "examples::Fft_1024::out_of_place called") s'),
         (sweep (Z.to_nat length) 0 g h
            ++ [EvPrint "examples::Fft_1024::out_of_place called"]).
  split; [|split; [|split; [|done]]].
  - unfold out_of_place. by apply (then_print _ _ s s' tt).
  - simpl. rewrite Htr. by rewrite <- app_assoc.
  - intros i Hi. split.
    + rewrite loads_of_then_print.
      destruct (Hin i Hi) as [Ei _]. rewrite <- Ei. fold (g i).
      apply loads_of_sweep_once; [lia|].
      intros j Hj. unfold g. destruct (Hin j) as [-> _]; [lia|]. rewrite Ei.
      by apply strided_injective.
    + apply Hnone. intros Hel. apply (Hdisj _ Hel). by exists i.
Qed.
End Reads.

(** ** What the hypotheses exclude *)

Section Limits.
Import Samples.
#[local] Existing Instance word64.

(** A buffer too short for the elements addressed: the call is undefined. *)
Example in_place_short_buffer :
  in_place {| scale_ := f_one |} 0 2 5 (unit_machine 0 8) = None.
Proof. reflexivity. Qed.

(** A negative stride turns into a large unsigned offset. *)
Example in_place_negative_stride :
  subscript 7 1 (-1) = 7 + 18446744073709551615 /\
  in_place {| scale_ := f_one |} 7 (-1) 3 (unit_machine 0 8) = None.
Proof. split; reflexivity. Qed.

(** With stride 0 every iteration scales the same element. *)
Example in_place_stride_zero :
  mem_after (in_place {| scale_ := f_two |} 0 0 3) (unit_machine 0 8) 0
  = Some {| re := S754_finite false 8388608 (-20); im := f_zero |}.
Proof. reflexivity. Qed.

(** Output that overlaps later input: the second element read is one the
    call has written. *)
Example out_of_place_overlap :
  mem_after (out_of_place {| scale_ := f_two |} 0 1 1 1 2) (unit_machine 0 8) 2
  = Some {| re := S754_finite false 8388608 (-21); im := f_zero |}.
Proof. reflexivity. Qed.

(** The evaluator is specialised for [by_reference] only: a [by_value] Fft
    of 1024 elements is not dispatched to it. *)
Example by_value_bypasses_evaluator :
  candidates_for registry
    (op_fft 1 t_complex_float t_complex_float fft_fwd by_value 0)
  = [system_candidate].
Proof. reflexivity. Qed.

(** The two references of the second overload may name one object. *)
Example query_layout_aliased :
  query_layout2 1%positive 1%positive proposals
  = Some (tt, <[1%positive := {| packing := dense;
                                 storage_format := interleaved_complex;
                                 rest := 7%nat |}]> proposals) /\
  query_layout 3%positive proposals = None.
Proof. split; reflexivity. Qed.

(** An empty registry: dispatch reports the signature and the arguments. *)
Example select_no_candidate s :
  select [] (fft_type 0) (Domain_of_length 1024) f_one s
  = Some (inl (NoMatchingBackend (fft_type 0) (Domain_of_length 1024) f_one), s).
Proof. reflexivity. Qed.
End Limits.

(** ** The properties at concrete inputs *)

Module Witnesses.
Import Samples.

Lemma unit_buffer_lookup base size k :
  0 <= k < size ->
  unit_buffer base size !! (base + k) = Some (complex_of_float f_one).
Proof.
  intros Hk. unfold unit_buffer. apply elem_of_list_to_map_1.
  - rewrite <- list_fmap_compose. apply NoDup_fmap_2; [|apply NoDup_seqZ].
    intros j1 j2 Heq. simpl in Heq. lia.
  - apply list_elem_of_fmap. exists k. split; [done|].
    apply elem_of_seqZ. lia.
Qed.

Lemma unit_machine_holds `{WordSize} base size data n :
  0 <= base -> base + size <= 2 ^ word_bits ->
  base <= data -> data + n <= base + size ->
  holds (unit_machine base size) data n.
Proof.
  intros Hbase Hfit Hlo Hhi k Hk. split.
  - apply valid_addr_range. lia.
  - replace (data + k) with (base + (data - base + k)) by lia.
    simpl. rewrite unit_buffer_lookup by lia. done.
Qed.

Lemma unit_machine_accessible `{WordSize} base size a :
  0 <= base -> base + size <= 2 ^ word_bits -> base <= a < base + size ->
  accessible (unit_machine base size) a.
Proof.
  intros Hbase Hfit Ha.
  replace a with (a + 0) by lia.
  apply (unit_machine_holds base size a 1); lia.
Qed.

Lemma unit_machine_unit_valued base size data stride length :
  (forall i, 0 <= i < length -> 0 <= data - base + i * stride < size) ->
  unit_valued (unit_machine base size) data stride length.
Proof.
  intros Hin i Hi.
  replace (data + i * stride) with (base + (data - base + i * stride)) by lia.
  simpl. apply unit_buffer_lookup. by apply Hin.
Qed.

Lemma word64_size : 2 ^ @word_bits word64 = 18446744073709551616.
Proof. reflexivity. Qed.

Lemma subscript_small `{WordSize} data i stride :
  0 <= i * stride < 2 ^ word_bits -> subscript data i stride = data + i * stride.
Proof. intros Hi. unfold subscript. by rewrite wrap_small. Qed.

#[local] Existing Instance word64.

Lemma evaluator_validity_witness :
  Domain_size (Domain_of_length 1024) = 1024 /\
  Evaluator.rt_valid (Domain_of_length 1024) f_one = true.
Proof.
  split; [reflexivity|].
  apply (proj1 (proj2 evaluator_validity)). reflexivity.
Defined.

Lemma dispatch_by_length_witness :
  Domain_size (Domain_of_length 1024) = 1024 /\
  Domain_size (Domain_of_length 2048) = 2048 /\
  (exists b s',
     main_fft1 0 (unit_machine 0 0) = Some (inr b, s') /\
     objects s' !! get (backend_ b) = Some (User_backend {| scale_ := f_one |}) /\
     trace s' = [EvPrint "Creating 1024-element Fft object";
                 EvPrint "examples::Fft_1024 constructor called"]) /\
  (exists b s',
     main_fft2 0 (unit_machine 0 0) = Some (inr b, s') /\
     objects s' !! get (backend_ b)
     = Some (System_backend (Domain_of_length 2048) f_one) /\
     trace s' = [EvPrint "Creating 2048-element Fft object"]).
Proof.
  split; [reflexivity|]. split; [reflexivity|].
  destruct (dispatch_by_length 0 f_one
              (log (EvPrint "Creating 1024-element Fft object") (unit_machine 0 0))
              (Domain_of_length 1024) (Domain_of_length 2048))
    as (Huser & _ & _ & _); [reflexivity..|].
  destruct (dispatch_by_length 0 f_one
              (log (EvPrint "Creating 2048-element Fft object") (unit_machine 0 0))
              (Domain_of_length 1024) (Domain_of_length 2048))
    as (_ & _ & _ & Hsys); [reflexivity..|].
  split; eexists _, _.
  - split; [exact Huser|]. split; [apply lookup_insert_eq|reflexivity].
  - split; [exact Hsys|]. split; [apply lookup_insert_eq|reflexivity].
Defined.

Lemma in_place_scales_each_element_once_witness :
  1 <= 2 /\ holds (unit_machine 0 8) 1 5 /\ (3 - 1) * 2 + 1 <= 5 /\
  exists s',
    in_place {| scale_ := f_one |} 1 2 3 (unit_machine 0 8) = Some (tt, s') /\
    mem s' !! 3 = Some (cscale (complex_of_float f_one) f_one) /\
    mem s' !! 2 = mem (unit_machine 0 8) !! 2.
Proof.
  assert (Hh : holds (unit_machine 0 8) 1 5).
  { apply unit_machine_holds; rewrite ?word64_size; lia. }
  split; [lia|]. split; [exact Hh|]. split; [lia|].
  destruct (in_place_scales_each_element_once {| scale_ := f_one |}
              (unit_machine 0 8) 1 2 3 5)
    as (s' & evs & Hrun & _ & Helem & Hother); [lia|exact Hh|lia|].
  exists s'. split; [exact Hrun|]. split.
  - destruct (Helem 1) as [He _]; [lia|]. exact He.
  - apply Hother. intros (i & Hi & Heq). lia.
Defined.

Lemma out_of_place_writes_scaled_input_witness :
  holds (unit_machine 0 8) 0 2 /\ holds (unit_machine 0 8) 4 3 /\
  exists s',
    out_of_place {| scale_ := f_one |} 0 1 4 2 2 (unit_machine 0 8)
    = Some (tt, s') /\
    mem s' !! 6 = Some (cscale (complex_of_float f_one) f_one).
Proof.
  assert (Hi : holds (unit_machine 0 8) 0 2).
  { apply unit_machine_holds; rewrite ?word64_size; lia. }
  assert (Ho : holds (unit_machine 0 8) 4 3).
  { apply unit_machine_holds; rewrite ?word64_size; lia. }
  split; [exact Hi|]. split; [exact Ho|].
  destruct (out_of_place_writes_scaled_input {| scale_ := f_one |}
              (unit_machine 0 8) 0 1 2 4 2 3 2)
    as (s' & evs & Hrun & _ & Helem & _);
    [lia|lia|exact Hi|lia|exact Ho|lia| |].
  { intros a (i & Hi' & Hai) (j & Hj & Haj). lia. }
  exists s'. split; [exact Hrun|].
  destruct (Helem 1) as [He _]; [lia|]. exact He.
Defined.

Lemma out_of_place_preserves_input_witness :
  exists s',
    out_of_place {| scale_ := f_one |} 0 1 4 2 2 (unit_machine 0 8)
    = Some (tt, s') /\
    mem s' !! 1 = mem (unit_machine 0 8) !! 1.
Proof.
  destruct (out_of_place_preserves_input {| scale_ := f_one |}
              (unit_machine 0 8) 0 1 4 2 2)
    as (s' & evs & Hrun & _ & Hin & _).
  { intros i Hi. rewrite !subscript_small by (rewrite word64_size; lia).
    split; apply unit_machine_accessible; rewrite ?word64_size; lia. }
  { intros i j Hi Hj. rewrite !subscript_small by (rewrite word64_size; lia).
    lia. }
  exists s'. split; [exact Hrun|].
  destruct (Hin 1) as [He _]; [lia|]. exact He.
Defined.

Lemma accesses_stay_in_bounds_witness :
  holds (unit_machine 0 8) 0 2 /\ holds (unit_machine 0 8) 4 3 /\
  is_Some (in_place {| scale_ := f_one |} 0 1 2 (unit_machine 0 8)) /\
  is_Some (out_of_place {| scale_ := f_one |} 0 1 4 2 2 (unit_machine 0 8)).
Proof.
  assert (Hi : holds (unit_machine 0 8) 0 2).
  { apply unit_machine_holds; rewrite ?word64_size; lia. }
  assert (Ho : holds (unit_machine 0 8) 4 3).
  { apply unit_machine_holds; rewrite ?word64_size; lia. }
  split; [exact Hi|]. split; [exact Ho|].
  apply (accesses_stay_in_bounds {| scale_ := f_one |}
           (unit_machine 0 8) 0 1 2 4 2 3 2); (exact Hi || exact Ho || lia).
Defined.

Lemma in_place_unit_scale_is_identity_witness :
  holds (unit_machine 0 1024) 0 1024 /\
  unit_valued (unit_machine 0 1024) 0 1 1024 /\
  exists s',
    in_place {| scale_ := f_one |} 0 1 1024 (unit_machine 0 1024) = Some (tt, s') /\
    unit_valued s' 0 1 1024 /\
    mem s' = mem (unit_machine 0 1024).
Proof.
  assert (Hh : holds (unit_machine 0 1024) 0 1024).
  { apply unit_machine_holds; rewrite ?word64_size; lia. }
  assert (Hu : unit_valued (unit_machine 0 1024) 0 1 1024).
  { apply unit_machine_unit_valued. intros i Hi. lia. }
  split; [exact Hh|]. split; [exact Hu|].
  apply (in_place_unit_scale_is_identity (Domain_of_length 1024)
           (unit_machine 0 0) {| scale_ := f_one |}
           (log (EvPrint "examples::Fft_1024 constructor called") (unit_machine 0 0))
           (unit_machine 0 1024) 0 1 1024);
    [reflexivity|lia|exact Hh|lia|exact Hu].
Defined.

Lemma query_layout_ignores_proposal_witness :
  exists ls',
    query_layout2 1%positive 2%positive proposals = Some (tt, ls') /\
    ls' !! 1%positive = Some {| packing := dense;
                                storage_format := interleaved_complex;
                                rest := 7%nat |} /\
    ls' !! 2%positive = Some {| packing := dense;
                                storage_format := interleaved_complex;
                                rest := 9%nat |}.
Proof.
  destruct (query_layout_ignores_proposal proposals 1%positive 1%positive 2%positive
              {| packing := strided; storage_format := split_complex; rest := 7%nat |}
              {| packing := strided; storage_format := split_complex; rest := 7%nat |}
              {| packing := dense; storage_format := split_complex; rest := 9%nat |})
    as (_ & ls' & Hrun & Hin & Hout & _); [reflexivity..|].
  exists ls'. split; [exact Hrun|]. split; [exact Hin|exact Hout].
Defined.

Lemma exec_constructs_owned_backend_witness :
  Evaluator.rt_valid (Domain_of_length 1024) f_one = true /\
  exists p s',
    Evaluator.exec (Domain_of_length 1024) f_one (unit_machine 0 0)
    = Some (Auto_ptr p, s') /\
    objects s' !! p = Some (User_backend {| scale_ := f_one |}).
Proof.
  split; [reflexivity|].
  destruct (exec_constructs_owned_backend 0 (Domain_of_length 1024) f_one
              (unit_machine 0 0))
    as (_ & p & s' & Hrun & _ & Hobj & _); [reflexivity|].
  exists p, s'. split; [exact Hrun|exact Hobj].
Defined.



Lemma in_place_order_and_storage_witness :
  exists s',
    in_place {| scale_ := f_two |} 0 2 2 (unit_machine 0 8) = Some (tt, s') /\
    dom (mem s') = dom (mem (unit_machine 0 8)) /\
    objects s' = objects (unit_machine 0 8).
Proof.
  destruct (in_place {| scale_ := f_two |} 0 2 2 (unit_machine 0 8))
    as [[[] s']|] eqn:Hrun.
  - exists s'. split; [reflexivity|].
    destruct (in_place_order_and_storage _ _ _ _ _ _ Hrun) as (_ & Hd & Ho).
    split; [exact Hd|exact Ho].
  - vm_compute in Hrun. discriminate Hrun.
Defined.

Lemma out_of_place_order_and_storage_witness :
  exists s',
    out_of_place {| scale_ := f_two |} 0 1 4 2 2 (unit_machine 0 8) = Some (tt, s') /\
    dom (mem s') = dom (mem (unit_machine 0 8)) /\
    objects s' = objects (unit_machine 0 8).
Proof.
  destruct (out_of_place {| scale_ := f_two |} 0 1 4 2 2 (unit_machine 0 8))
    as [[[] s']|] eqn:Hrun.
  - exists s'. split; [reflexivity|].
    destruct (out_of_place_order_and_storage _ _ _ _ _ _ _ _ Hrun) as (_ & Hd & Ho).
    split; [exact Hd|exact Ho].
  - vm_compute in Hrun. discriminate Hrun.
Defined.

Lemma in_place_stride_zero_repeats_witness :
  exists s',
    in_place {| scale_ := f_two |} 0 0 3 (unit_machine 0 8) = Some (tt, s') /\
    mem s' !! 0 = Some {| re := S754_finite false 8388608 (-20); im := f_zero |}.
Proof.
  destruct (in_place_stride_zero_repeats {| scale_ := f_two |} (unit_machine 0 8)
              0 3 (complex_of_float f_one))
    as (s' & evs & Hrun & Hmem & _); [reflexivity..|].
  exists s'. split; [exact Hrun|]. rewrite Hmem. apply lookup_insert_eq.
Defined.

Lemma in_place_twice_composes_witness :
  holds (unit_machine 0 8) 0 3 /\
  exists s'',
    (in_place {| scale_ := f_two |} 0 2 2 ;;; in_place {| scale_ := f_two |} 0 2 2)
      (unit_machine 0 8) = Some (tt, s'') /\
    mem s'' !! 2 = Some {| re := S754_finite false 8388608 (-21); im := f_zero |}.
Proof.
  assert (Hh : holds (unit_machine 0 8) 0 3).
  { apply unit_machine_holds; rewrite ?word64_size; lia. }
  split; [exact Hh|].
  destruct (in_place_twice_composes {| scale_ := f_two |} {| scale_ := f_two |}
              (unit_machine 0 8) 0 2 2 3)
    as (s'' & Hrun & Helem & _); [lia|exact Hh|lia|].
  exists s''. split; [exact Hrun|]. apply (Helem 1). lia.
Defined.



Lemma query_layout_keeps_required_layout_witness :
  query_layout 1%positive agreed = Some (tt, agreed) /\
  query_layout2 1%positive 2%positive agreed = Some (tt, agreed).
Proof.
  apply (query_layout_keeps_required_layout agreed 1%positive 2%positive
           {| packing := dense; storage_format := interleaved_complex; rest := 7%nat |}
           {| packing := dense; storage_format := interleaved_complex; rest := 9%nat |});
    reflexivity.
Defined.

Lemma out_of_place_reads_input_once_witness :
  holds (unit_machine 0 8) 0 2 /\ holds (unit_machine 0 8) 4 3 /\
  exists s' evs,
    out_of_place {| scale_ := f_one |} 0 1 4 2 2 (unit_machine 0 8)
    = Some (tt, s') /\
    trace s' = trace (unit_machine 0 8) ++ evs /\
    loads_of 1 evs = 1%nat /\ loads_of 6 evs = 0%nat.
Proof.
  assert (Hi : holds (unit_machine 0 8) 0 2).
  { apply unit_machine_holds; rewrite ?word64_size; lia. }
  assert (Ho : holds (unit_machine 0 8) 4 3).
  { apply unit_machine_holds; rewrite ?word64_size; lia. }
  split; [exact Hi|]. split; [exact Ho|].
  destruct (out_of_place_reads_input_once {| scale_ := f_one |}
              (unit_machine 0 8) 0 1 2 4 2 3 2)
    as (s' & evs & Hrun & Htr & Hloads & _);
    [lia|lia|exact Hi|lia|exact Ho|lia| |].
  { intros a (i & Hi' & Hai) (j & Hj & Haj). lia. }
  exists s', evs. split; [exact Hrun|]. split; [exact Htr|].
  destruct (Hloads 1) as [Hone Hzero]; [lia|]. split; [exact Hone|exact Hzero].
Defined.

End Witnesses.
